(** * PDF ingestion worker ([src/server/worker.js]): a shallow embedding

    The worker consumes one upload job at a time, checks that the file
    exists, probes the embedding dimension, reconciles the Qdrant
    collection ["pdf-docs"] with it, loads and splits the PDF, and writes
    the chunks to the vector store in batches of 50.

    The JavaScript is embedded as functions in a state-and-error monad
    over a [World] that holds the state of the index service and the log
    of every call the worker issues to a collaborator.  What the
    collaborators return is fixed by an environment [Env]; any call to a
    service may throw, which is scripted by the environment's [fault]
    oracle. *)

From stdpp Require Import gmap strings list fin_maps.
From Equations Require Import Equations.
From Stdlib Require Import Ascii ZArith QArith Lia.

Set Default Proof Using "Type".
Local Open Scope Z_scope.
Local Open Scope nat_scope.

(** ** JavaScript values of a job payload *)

(** [job.data] is dynamically typed: a JSON string or an already parsed
    value.  Numbers are integers here; the worker never computes with
    them. *)
Inductive JSValue : Type :=
| VUndefined
| VNull
| VBool (b : bool)
| VNumber (n : Z)
| VString (s : string)
| VObject (fields : JSFields)
with JSFields : Type :=
| FNil
| FCons (key : string) (value : JSValue) (rest : JSFields).

(** [typeof v === 'string'] *)
Definition is_string (v : JSValue) : bool :=
  match v with VString _ => true | _ => false end.

(** Truthiness, as used by [||]. *)
Definition truthy (v : JSValue) : bool :=
  match v with
  | VUndefined | VNull => false
  | VBool b => b
  | VNumber n => negb (n =? 0)%Z
  | VString s => negb (String.eqb s "")
  | VObject _ => true
  end.

(** Own property of an object literal; the first binding of a key wins. *)
Fixpoint lookup_field (k : string) (fields : JSFields) : JSValue :=
  match fields with
  | FNil => VUndefined
  | FCons k' v rest => if String.eqb k' k then v else lookup_field k rest
  end.

(** ** Errors and results *)

Inductive Error : Type :=
| FileNotFound (filePath : JSValue)
    (* new Error(`File not found at path: ${filePath}`) *)
| TypeError (msg : string)
    (* property read on null/undefined, non-string argument of path.join *)
| SyntaxError
    (* JSON.parse on malformed text *)
| Thrown (msg : string).
    (* an error raised by a collaborator: Ollama, Qdrant, the PDF loader *)

Inductive Result (A : Type) : Type :=
| Ok (a : A)
| Err (e : Error).
Arguments Ok {A} a.
Arguments Err {A} e.

(** ** Documents, vectors, the index service *)

(** A LangChain document: a page of the PDF, or a chunk of it. *)
Record Document : Type := mkDocument {
  pageContent : string;
  pageIndex : nat
}.

(** An embedding; the worker only ever observes its length. *)
Definition Vector : Type := list Q.

Inductive Distance : Type := Cosine | Euclid | Dot.

Record Collection : Type := mkCollection {
  vec_size : Z;                          (* config.params.vectors.size *)
  vec_distance : Distance;               (* config.params.vectors.distance *)
  points : list (Document * Vector)      (* upserted points, oldest first *)
}.

(** Every call the worker issues to a collaborator, with its arguments. *)
Inductive Call : Type :=
| ExistsSync (filePath : JSValue)
| EmbedQuery (text : string)
| GetCollections
| GetCollection (name : string)
| DeleteCollection (name : string)
| CreateCollection (name : string) (size : Z) (distance : Distance)
| PdfLoad (filePath : JSValue)
| SplitDocuments (docs : list Document)
| AddDocuments (batch : list Document)
| Sleep (ms : Z).

Record World : Type := mkWorld {
  qdrant : gmap string Collection;   (* the index service: name -> collection *)
  calls : list Call                  (* calls issued so far, oldest first *)
}.

(** What the collaborators answer.  [fault n = Some e] makes the service
    call that is issued when the log holds [n] calls throw [e] before it
    has any effect; [fs.existsSync] and the timer are logged as well but
    never throw. *)
Record Env : Type := mkEnv {
  JSON_parse : string -> option JSValue;        (* None: SyntaxError *)
  path_join : string -> string -> string;       (* path.join on two strings *)
  fs_exists : string -> bool;                   (* the file system *)
  ollama_embed : string -> Vector;              (* nomic-embed-text *)
  pdf_pages : string -> list Document;          (* PDFLoader, splitPages *)
  split_chunks : list Document -> list Document;(* CharacterTextSplitter *)
  fault : nat -> option Error
}.

(** ** The monad *)

Definition M (A : Type) : Type := World -> Result A * World.

Definition ret {A} (a : A) : M A := fun w => (Ok a, w).

Definition throw {A} (e : Error) : M A := fun w => (Err e, w).

Definition bind {A B} (m : M A) (k : A -> M B) : M B :=
  fun w =>
    match m w with
    | (Ok a, w1) => k a w1
    | (Err e, w1) => (Err e, w1)
    end.

(** [try { m } catch (error) { h error }] *)
Definition try_catch {A} (m : M A) (h : Error -> M A) : M A :=
  fun w =>
    match m w with
    | (Ok a, w1) => (Ok a, w1)
    | (Err e, w1) => h e w1
    end.

Notation "'let*' x ':=' m 'in' k" := (bind m (fun x => k))
  (at level 10, x name, m at level 100, k at level 200,
   format "'[v' 'let*'  x  ':='  m  'in' '/' k ']'").
Notation "m ';;;' k" := (bind m (fun _ => k))
  (at level 100, k at level 200, right associativity).

Definition log (c : Call) (w : World) : World :=
  {| qdrant := qdrant w; calls := calls w ++ [c] |}.

(** [fs.existsSync(filePath)], as the file system answers it. *)
Definition on_disk (env : Env) (filePath : JSValue) : bool :=
  match filePath with VString p => fs_exists env p | _ => false end.

Section Worker.

Context (env : Env).

(** A call that cannot throw: it is logged and answered. *)
Definition quiet {A} (c : Call) (answer : World -> Result A * World) : M A :=
  fun w => answer (log c w).

(** A call to a service: logged, then either the scripted fault or the
    service's answer. *)
Definition service {A} (c : Call) (answer : World -> Result A * World) : M A :=
  fun w =>
    match fault env (length (calls w)) with
    | Some e => (Err e, log c w)
    | None => answer (log c w)
    end.

(** *** Collaborators *)

(** [fs.existsSync]: false for anything that is not a path, never throws. *)
Definition fs_existsSync (filePath : JSValue) : M bool :=
  quiet (ExistsSync filePath)
    (ret (on_disk env filePath)).

(** [embeddings.embedQuery(text)] *)
Definition embedQuery (text : string) : M Vector :=
  service (EmbedQuery text) (ret (ollama_embed env text)).

(** Modelled from the spec: the index service of section 6, which is the
    Qdrant server behind [@qdrant/js-client-rest], as a finite map from
    collection names to their configuration and points.
    [qdrantClient.getCollections()] is its [listCollections]: the names of
    the collections. *)
Definition getCollections : M (list string) :=
  service GetCollections (fun w => (Ok (map fst (map_to_list (qdrant w))), w)).

(** Modelled from the spec: [getCollection(name)] of section 6, for
    [qdrantClient.getCollection(name)]; an unknown name is an error. *)
Definition getCollection (name : string) : M Collection :=
  service (GetCollection name) (fun w =>
    match qdrant w !! name with
    | Some c => (Ok c, w)
    | None => (Err (Thrown "Not found: Collection doesn't exist"), w)
    end).

(** Modelled from the spec: [deleteCollection(name)] of section 6, for
    [qdrantClient.deleteCollection(name)]; the points go with the
    collection. *)
Definition deleteCollection (name : string) : M unit :=
  service (DeleteCollection name) (fun w =>
    (Ok tt, {| qdrant := delete name (qdrant w); calls := calls w |})).

(** Modelled from the spec: [createCollection(name, vectorSize,
    distanceMetric)] of section 6, for
    [qdrantClient.createCollection(name, {vectors: {size, distance}})];
    the new collection has no points, and a name in use is an error. *)
Definition createCollection (name : string) (size : Z) (distance : Distance) : M unit :=
  service (CreateCollection name size distance) (fun w =>
    match qdrant w !! name with
    | Some _ => (Err (Thrown "Collection already exists"), w)
    | None =>
        (Ok tt, {| qdrant := <[name := mkCollection size distance []]> (qdrant w);
                   calls := calls w |})
    end).

(** [loader.load()] on a [PDFLoader] for [filePath] *)
Definition pdf_load (filePath : JSValue) : M (list Document) :=
  service (PdfLoad filePath) (fun w =>
    match filePath with
    | VString p => (Ok (pdf_pages env p), w)
    | _ => (Err (TypeError "path must be a string"), w)
    end).

(** [textSplitter.splitDocuments(docs)] *)
Definition splitDocuments (docs : list Document) : M (list Document) :=
  service (SplitDocuments docs) (ret (split_chunks env docs)).

(** A chunk with its embedding. *)
Definition embed_point (d : Document) : Document * Vector :=
  (d, ollama_embed env (pageContent d)).

(** The vector of the point has the collection's size. *)
Definition fits (c : Collection) (p : Document * Vector) : bool :=
  (Z.of_nat (length (snd p)) =? vec_size c)%Z.

(** Modelled from the spec: section 4.4 and [upsertPoints] of section 6,
    for [vectorStore.addDocuments(batch)] of [@langchain/qdrant]: every
    chunk of the batch is embedded, then the points are upserted into
    ["pdf-docs"] in one request.  The index service rejects a vector whose
    length is not the collection's size. *)
Definition addDocuments (batch : list Document) : M unit :=
  service (AddDocuments batch) (fun w =>
    let pts := map embed_point batch in
    match qdrant w !! "pdf-docs" with
    | None => (Err (Thrown "Not found: Collection doesn't exist"), w)
    | Some c =>
        if forallb (fits c) pts then
          (Ok tt, {| qdrant := <["pdf-docs" :=
                                   mkCollection (vec_size c) (vec_distance c)
                                                (points c ++ pts)]> (qdrant w);
                     calls := calls w |})
        else (Err (Thrown "Wrong input: Vector dimension error"), w)
    end).

(** [new Promise(resolve => setTimeout(resolve, ms))] *)
Definition sleep (ms : Z) : M unit :=
  quiet (Sleep ms) (ret tt).

End Worker.

Section Processor.

Context (env : Env).

(** *** [getEmbeddingDimension] (worker.js 11-29) *)

Definition getEmbeddingDimension : M Z :=
  try_catch
    (let* testResult := embedQuery env "test query" in
     let dimension := Z.of_nat (length testResult) in
     ret dimension)
    (fun _error => ret 768%Z).

(** *** Collection check/create block (worker.js 68-109) *)

Definition reconcileCollection (dimension : Z) : M unit :=
  try_catch
    (let* collections := getCollections env in
     let collectionExists := existsb (fun name => String.eqb name "pdf-docs") collections in
     if collectionExists then
       let* collectionInfo := getCollection env "pdf-docs" in
       let currentDimension := vec_size collectionInfo in
       if negb (currentDimension =? dimension)%Z then
         deleteCollection env "pdf-docs" ;;;
         createCollection env "pdf-docs" dimension Cosine
       else ret tt
     else
       createCollection env "pdf-docs" dimension Cosine)
    (fun error => throw error).

(** *** Batch loop (worker.js 136-147) *)

Definition batchSize : nat := 50.

(** [Array.prototype.slice(from, to)] for [0 <= from <= to]. *)
Definition slice {A} (l : list A) (from to : nat) : list A :=
  take (to - from) (drop from l).

Equations? batchLoop (splitDocs : list Document) (i : nat) : M unit
  by wf (length splitDocs - i) lt :=
  batchLoop splitDocs i with lt_dec i (length splitDocs) => {
    | left _ =>
        let batch := slice splitDocs i (i + batchSize) in
        addDocuments env batch ;;;
        (if i + batchSize <? length splitDocs then sleep 1000 else ret tt) ;;;
        batchLoop splitDocs (i + batchSize)
    | right _ => ret tt }.
Proof. unfold batchSize. lia. Qed.

(** *** The job processor (worker.js 33-155) *)

Record Job : Type := mkJob { job_id : string; job_data : JSValue }.

Record JobResult : Type := mkJobResult { success : bool; docCount : nat }.

(** [fileInfo.name]: a property read throws on [null] and [undefined];
    primitives have none of the three properties the worker reads. *)
Definition get_prop (v : JSValue) (name : string) : M JSValue :=
  match v with
  | VUndefined | VNull => throw (TypeError "Cannot read properties of null or undefined")
  | VObject fields => ret (lookup_field name fields)
  | _ => ret VUndefined
  end.

(** [path.join(a, b)] throws unless both arguments are strings. *)
Definition path_join_js (a b : JSValue) : M JSValue :=
  match a, b with
  | VString d, VString f => ret (VString (path_join env d f))
  | _, _ => throw (TypeError "The path argument must be of type string")
  end.

(** [typeof job.data === 'string' ? JSON.parse(job.data) : job.data] *)
Definition parseJobData (data : JSValue) : M JSValue :=
  match data with
  | VString s =>
      match JSON_parse env s with
      | Some v => ret v
      | None => throw SyntaxError
      end
  | _ => ret data
  end.

(** [fileInfo.path || path.join(fileInfo.destination, fileInfo.filename)] *)
Definition resolveFilePath (fileInfo : JSValue) : M JSValue :=
  let* p := get_prop fileInfo "path" in
  if truthy p then ret p
  else
    let* destination := get_prop fileInfo "destination" in
    let* filename := get_prop fileInfo "filename" in
    path_join_js destination filename.

Definition processor (job : Job) : M JobResult :=
  try_catch
    (let* fileInfo := parseJobData (job_data job) in
     let* filePath := resolveFilePath fileInfo in
     let* found := fs_existsSync env filePath in
     if negb found then throw (FileNotFound filePath)
     else
       let* dimension := getEmbeddingDimension in
       reconcileCollection dimension ;;;
       let* docs := pdf_load env filePath in
       let* splitDocs := splitDocuments env docs in
       batchLoop splitDocs 0 ;;;
       ret {| success := true; docCount := length splitDocs |})
    (fun error => throw error).

End Processor.

(** * The chunker *)

Module Chunker.

(** Modelled from the spec: the Chunker of section 4.3.  The worker calls
    [CharacterTextSplitter.splitDocuments] of [@langchain/textsplitters],
    whose code is not among the sources; what follows is the spec's
    algorithm: the page texts are concatenated, every character keeping
    the index of its page, and cut into consecutive windows of at most
    [maxSize] characters, each window after the first beginning [overlap]
    characters before the end of the previous one.  The last window is the
    one that reaches the end of the text. *)
Equations? windows {A} (maxSize overlap : nat) (text : list A) : list (list A)
  by wf (length text) lt :=
  windows maxSize overlap text with le_dec (length text) maxSize => {
    | left _ => [text]
    | right _ with maxSize - overlap => {
        | 0 => [text]
        | S step =>
            take maxSize text
              :: windows maxSize overlap (drop (S step) text) } }.
Proof. rewrite length_drop. lia. Qed.

Definition chars (d : Document) : list ascii :=
  String.list_ascii_of_string (pageContent d).

(** The concatenated text of the pages. *)
Definition page_text (pages : list Document) : list ascii :=
  flat_map chars pages.

(** The same, every character with the index of its page. *)
Definition annotate (pages : list Document) : list (ascii * nat) :=
  flat_map (λ pg, map (λ ch, (ch, pageIndex pg)) (chars pg)) pages.

(** A chunk inherits the page of its first character. *)
Definition mkChunk (first_page : nat) (window : list (ascii * nat)) : Document :=
  {| pageContent := String.string_of_list_ascii (map fst window);
     pageIndex := match window with (_, pg) :: _ => pg | [] => first_page end |}.

(** Modelled from the spec: [split(pages, maxSize, overlap)] of section
    4.3, with its explicit guard: [None] when [overlap >= maxSize].  No
    pages give no chunk; any other input gives at least one. *)
Definition split (pages : list Document) (maxSize overlap : nat)
  : option (list Document) :=
  if maxSize <=? overlap then None
  else
    match pages with
    | [] => Some []
    | pg :: _ =>
        Some (map (mkChunk (pageIndex pg)) (windows maxSize overlap (annotate pages)))
    end.

(** The first window whole, then every later window without its leading
    [overlap] elements. *)
Definition rejoin {A} (overlap : nat) (ws : list (list A)) : list A :=
  match ws with
  | [] => []
  | first :: rest => first ++ concat (map (drop overlap) rest)
  end.

Definition reassemble (overlap : nat) (chunks : list Document) : list ascii :=
  rejoin overlap (map chars chunks).

End Chunker.

(** * Vocabulary of the properties *)

(** The index service answers the next [n] calls of the run. *)
Definition reachable (env : Env) (w : World) (n : nat) : Prop :=
  ∀ i, i < n → fault env (length (calls w) + i) = None.

(** The three outcomes of a reconciliation the index service answers. *)
Definition reconciled (d : Z) (w : World) : World :=
  match qdrant w !! "pdf-docs" with
  | None =>
      {| qdrant := <["pdf-docs" := mkCollection d Cosine []]> (qdrant w);
         calls := calls w ++ [GetCollections; CreateCollection "pdf-docs" d Cosine] |}
  | Some c =>
      if (vec_size c =? d)%Z then
        {| qdrant := qdrant w;
           calls := calls w ++ [GetCollections; GetCollection "pdf-docs"] |}
      else
        {| qdrant := <["pdf-docs" := mkCollection d Cosine []]>
                       (delete "pdf-docs" (qdrant w));
           calls := calls w ++ [GetCollections; GetCollection "pdf-docs";
                                DeleteCollection "pdf-docs";
                                CreateCollection "pdf-docs" d Cosine] |}
  end.

(** The calls issued between two states of the world. *)
Definition issued (w w' : World) : list Call :=
  drop (length (calls w)) (calls w').

Definition creates_or_deletes (c : Call) : bool :=
  match c with
  | CreateCollection _ _ _ | DeleteCollection _ => true
  | _ => false
  end.

(** Group [j] of the chunk sequence: chunks [50 j] to [50 j + 49]. *)
Definition group (cs : list Document) (j : nat) : list Document :=
  slice cs (batchSize * j) (batchSize * j + batchSize).

(** [Math.ceil(n / batchSize)] *)
Definition group_count (n : nat) : nat := (n + (batchSize - 1)) / batchSize.

Definition groups (cs : list Document) : list (list Document) :=
  map (group cs) (seq 0 (group_count (length cs))).

(** The batches passed to [addDocuments], in the order of the calls. *)
Definition upserts (cs : list Call) : list (list Document) :=
  omap (λ c, match c with AddDocuments b => Some b | _ => None end) cs.

(** Every run of [m] extends the log, and only by calls in [P]. *)
Definition emits {A} (P : Call → Prop) (m : M A) : Prop :=
  ∀ w r w', m w = (r, w') → ∃ cs, calls w' = calls w ++ cs ∧ Forall P cs.

(** The first two statements of the processor: the payload is parsed if
    it is a string, and the file path is resolved from it. *)
Definition jobFilePath (env : Env) (job : Job) : M JSValue :=
  let* fileInfo := parseJobData env (job_data job) in
  resolveFilePath env fileInfo.

(** The processor up to the loading step: path, existence check, probe,
    reconciliation. *)
Definition reachLoading (env : Env) (job : Job) : M JSValue :=
  let* filePath := jobFilePath env job in
  let* found := fs_existsSync env filePath in
  if negb found then throw (FileNotFound filePath)
  else
    let* dimension := getEmbeddingDimension env in
    reconcileCollection env dimension ;;;
    ret filePath.

(** The processor up to the split: everything before the batch loop. *)
Definition prepare (env : Env) (job : Job) : M (list Document) :=
  let* filePath := reachLoading env job in
  let* docs := pdf_load env filePath in
  splitDocuments env docs.

Definition not_upsert (c : Call) : Prop := upserts [c] = [].

(** The points stored in ["pdf-docs"], oldest first; none when the
    collection is missing. *)
Definition stored (w : World) : list (Document * Vector) :=
  match qdrant w !! "pdf-docs" with
  | Some c => points c
  | None => []
  end.

(** Every collection other than ["pdf-docs"] is as it was. *)
Definition others_kept (w w' : World) : Prop :=
  ∀ name, name ≠ "pdf-docs" → qdrant w' !! name = qdrant w !! name.

(** ["pdf-docs"], when it exists, keeps its configuration and its points,
    and may have gained some. *)
Definition grown (w w' : World) : Prop :=
  ∀ c, qdrant w !! "pdf-docs" = Some c →
    ∃ extra, qdrant w' !! "pdf-docs"
             = Some (mkCollection (vec_size c) (vec_distance c) (points c ++ extra)).

(** Every run of [m] takes the world to one related to it by [R]. *)
Definition respects {A} (R : World → World → Prop) (m : M A) : Prop :=
  ∀ w r w', m w = (r, w') → R w w'.

(** Every service answers from the state [w] on. *)
Definition answering (env : Env) (w : World) : Prop :=
  ∀ n, length (calls w) ≤ n → fault env n = None.

(** The dimension the provider really has: the length of the vector it
    answers for the probe text. *)
Definition provider_dimension (env : Env) : Z :=
  Z.of_nat (length (ollama_embed env "test query")).

(** The provider embeds every chunk with that dimension. *)
Definition uniform (env : Env) (chunks : list Document) : Prop :=
  Forall (λ d, Z.of_nat (length (ollama_embed env (pageContent d)))
               = provider_dimension env) chunks.

(** The calls of a batch loop that writes the groups [gs]: one
    [addDocuments] per group, a pause of one second between two groups,
    none after the last. *)
Fixpoint paced (gs : list (list Document)) : list Call :=
  match gs with
  | [] => []
  | [g] => [AddDocuments g]
  | g :: rest => AddDocuments g :: Sleep 1000 :: paced rest
  end.

Definition is_pause (c : Call) : bool :=
  match c with Sleep _ => true | _ => false end.

(** Neither an upsert nor a pause. *)
Definition before_indexing (c : Call) : Prop :=
  match c with AddDocuments _ | Sleep _ => False | _ => True end.

(** The probe followed by the reconciliation, as the processor chains
    them (worker.js 59-109). *)
Definition probeAndReconcile (env : Env) : M unit :=
  let* dimension := getEmbeddingDimension env in
  reconcileCollection env dimension.

(** The value of a property read on a payload that is neither [null] nor
    [undefined]: primitives have none of the worker's properties. *)
Definition property (v : JSValue) (name : string) : JSValue :=
  match v with VObject fields => lookup_field name fields | _ => VUndefined end.

(** The log has grown by calls in [P]. *)
Definition emitted (P : Call → Prop) (w w' : World) : Prop :=
  ∃ cs, calls w' = calls w ++ cs ∧ Forall P cs.

(** The points of ["pdf-docs"] that a reconciliation with dimension [d]
    keeps: all of them when the collection has size [d], none otherwise. *)
Definition kept (d : Z) (w : World) : list (Document * Vector) :=
  match qdrant w !! "pdf-docs" with
  | Some c => if (vec_size c =? d)%Z then points c else []
  | None => []
  end.

(** [apply] of a lemma stated for any preorder on worlds, the preorder
    being found by instance search. *)
Ltac respecting lem := apply lem; [typeclasses eauto | ..].

(** * Scenarios *)

(** Concrete collaborators and jobs on which the properties are run. *)

(** The double quote of JSON text. *)
Definition dq : string := String (ascii_of_nat 34) EmptyString.

(** The payload [{path: /docs/a.pdf}], as an object and as JSON text. *)
Definition payload_a : JSValue :=
  VObject (FCons "path" (VString "/docs/a.pdf") FNil).

Definition payload_a_json : string :=
  "{" +:+ dq +:+ "path" +:+ dq +:+ ":" +:+ dq +:+ "/docs/a.pdf" +:+ dq +:+ "}".

(** An upload described by directory and file name. *)
Definition payload_upload : JSValue :=
  VObject (FCons "destination" (VString "uploads")
          (FCons "filename" (VString "b.pdf") FNil)).

Definition payload_upload_json : string :=
  "{" +:+ dq +:+ "destination" +:+ dq +:+ ":" +:+ dq +:+ "uploads" +:+ dq +:+ ","
      +:+ dq +:+ "filename" +:+ dq +:+ ":" +:+ dq +:+ "b.pdf" +:+ dq +:+ "}".


Definition job_a : Job := mkJob "1" payload_a.

Definition three_pages : list Document :=
  [mkDocument "Vector stores keep embeddings." 0;
   mkDocument "A collection has one vector size." 1;
   mkDocument "Chunks overlap their neighbours." 2].

Definition numbered_chunks (n : nat) : list Document :=
  map (mkDocument "chunk") (seq 0 n).


(** A file system holding [/docs/a.pdf] and [uploads/b.pdf], an embedding
    provider of dimension 3, a loader answering [pages], a splitter, and a
    script of faults. *)
Definition scenario (pages : list Document)
    (splitter : list Document → list Document)
    (faults : nat → option Error) : Env :=
  {| JSON_parse := λ s,
       if String.eqb s payload_a_json then Some payload_a
       else if String.eqb s payload_upload_json then Some payload_upload
       else None;
     path_join := λ d f, d +:+ "/" +:+ f;
     fs_exists := λ p, String.eqb p "/docs/a.pdf" || String.eqb p "uploads/b.pdf";
     ollama_embed := λ _, [0%Q; 0%Q; 0%Q];
     pdf_pages := λ _, pages;
     split_chunks := splitter;
     fault := faults |}.

Definition no_faults : nat → option Error := λ _, None.

Definition fault_at (n : nat) (e : Error) : nat → option Error :=
  λ i, if i =? n then Some e else None.

(** 120 chunks, every service answering. *)
Definition env_120 : Env := scenario three_pages (λ _, numbered_chunks 120) no_faults.

(** 120 chunks, the ninth call of the run (the upsert of the second
    group) failing. *)
Definition env_120_broken : Env :=
  scenario three_pages (λ _, numbered_chunks 120)
           (fault_at 8 (Thrown "ECONNRESET")).



(** An index service without collections, and one whose ["pdf-docs"] has
    vectors of size 768. *)
Definition fresh : World := {| qdrant := ∅; calls := [] |}.

Definition stale : World :=
  {| qdrant := {[ "pdf-docs" := mkCollection 768 Cosine [] ]}; calls := [] |}.

(** A collection of the provider's dimension that already holds two
    points, beside a collection of another application. *)
Definition old_points : list (Document * Vector) :=
  [(mkDocument "old chunk" 0, [1%Q; 0%Q; 0%Q]);
   (mkDocument "older chunk" 1, [0%Q; 1%Q; 0%Q])].

Definition in_use : World :=
  {| qdrant := {[ "pdf-docs" := mkCollection 3 Cosine old_points;
                  "notes" := mkCollection 5 Dot [] ]};
     calls := [] |}.

(** 120 chunks, the embedding provider down for the first call. *)
Definition env_probe_down : Env :=
  scenario three_pages (λ _, numbered_chunks 120) (fault_at 0 (Thrown "ECONNREFUSED")).

(** The fourth call of a reconciliation failing: the create that follows
    the delete. *)
Definition env_create_down : Env :=
  scenario three_pages (λ _, numbered_chunks 120) (fault_at 3 (Thrown "ETIMEDOUT")).

Definition job_null : Job := mkJob "3" VNull.
Definition job_bad_json : Job := mkJob "4" (VString "{path:").
Definition job_upload_json : Job := mkJob "5" (VString payload_upload_json).

(** A payload with an empty [path] beside directory and file name. *)
Definition payload_empty_path : JSValue :=
  VObject (FCons "path" (VString "")
          (FCons "destination" (VString "uploads")
          (FCons "filename" (VString "b.pdf") FNil))).

(** A payload with a directory but no file name. *)
Definition payload_no_filename : JSValue :=
  VObject (FCons "destination" (VString "uploads") FNil).

(** JSON text whose value is itself a string. *)
Definition env_double_encoded : Env :=
  {| JSON_parse := λ s,
       if String.eqb s "quoted" then Some (VString payload_a_json) else None;
     path_join := λ d f, d +:+ "/" +:+ f;
     fs_exists := λ p, String.eqb p "/docs/a.pdf";
     ollama_embed := λ _, [0%Q; 0%Q; 0%Q];
     pdf_pages := λ _, three_pages;
     split_chunks := λ _, numbered_chunks 120;
     fault := no_faults |}.

(** * Properties of the worker *)

(** ** Calls, faults and the log *)

Lemma reachable_now env w n :
  reachable env w (S n) → fault env (length (calls w)) = None.
Proof. intros H. rewrite <- (Nat.add_0_r (length _)). apply H. lia. Qed.

Lemma length_calls_log c w : length (calls (log c w)) = S (length (calls w)).
Proof. simpl. rewrite length_app. simpl. lia. Qed.

Lemma service_ok {A} env c (answer : World → Result A * World) w :
  fault env (length (calls w)) = None →
  service env c answer w = answer (log c w).
Proof. intros H. unfold service. by rewrite H. Qed.

Lemma service_fault {A} env c (answer : World → Result A * World) w e :
  fault env (length (calls w)) = Some e →
  service env c answer w = (Err e, log c w).
Proof. intros H. unfold service. by rewrite H. Qed.

(** ** The embedding probe *)

(** C3. The probe returns the length of the vector the provider answers
    for the sample text, and the default 768 when the provider call
    throws, whatever the error; in both cases it returns normally, having
    issued the one [embedQuery] call. *)
Theorem getEmbeddingDimension_spec (env : Env) (w : World) :
  getEmbeddingDimension env w =
    (Ok match fault env (length (calls w)) with
        | None => Z.of_nat (length (ollama_embed env "test query"))
        | Some _ => 768%Z
        end,
     log (EmbedQuery "test query") w).
Proof.
  unfold getEmbeddingDimension, try_catch, bind, embedQuery, service, ret.
  by destruct (fault env (length (calls w))).
Qed.

(** The probe always returns, and logs exactly its one call. *)
Lemma probe_returns env w :
  ∃ d, getEmbeddingDimension env w = (Ok d, log (EmbedQuery "test query") w).
Proof.
  unfold getEmbeddingDimension, try_catch, bind, embedQuery, service, ret.
  destruct (fault env (length (calls w))); eauto.
Qed.

(** ** The collection reconciler *)

(** [collections.some(c => c.name === name)] decides membership in the
    index service. *)
Lemma collection_listed (m : gmap string Collection) (name : string) :
  existsb (λ n, String.eqb n name) (map fst (map_to_list m)) = true
  ↔ is_Some (m !! name).
Proof.
  rewrite existsb_exists. split.
  - intros (n & Hin & Heq). apply String.eqb_eq in Heq as ->.
    apply list_elem_of_In, list_elem_of_fmap in Hin as ([k c] & -> & Hin).
    apply elem_of_map_to_list in Hin. eauto.
  - intros [c Hc]. exists name. split; [|apply String.eqb_refl].
    apply list_elem_of_In, list_elem_of_fmap. exists (name, c).
    split; [done|]. by apply elem_of_map_to_list.
Qed.

Lemma collection_listed_Some (m : gmap string Collection) name c :
  m !! name = Some c →
  existsb (λ n, String.eqb n name) (map fst (map_to_list m)) = true.
Proof. intros H. apply collection_listed. eauto. Qed.

Lemma collection_listed_None (m : gmap string Collection) name :
  m !! name = None →
  existsb (λ n, String.eqb n name) (map fst (map_to_list m)) = false.
Proof.
  intros H. apply not_true_is_false. rewrite collection_listed, H.
  by intros [? ?].
Qed.

Lemma log_log_calls c1 c2 w :
  calls (log c2 (log c1 w)) = calls w ++ [c1; c2].
Proof. simpl. by rewrite <- app_assoc. Qed.

Lemma reconcileCollection_reachable env d w :
  reachable env w 4 →
  reconcileCollection env d w = (Ok tt, reconciled d w).
Proof.
  intros H.
  pose proof (H 0 ltac:(lia)) as H0. rewrite Nat.add_0_r in H0.
  pose proof (H 1 ltac:(lia)) as H1.
  pose proof (H 2 ltac:(lia)) as H2.
  pose proof (H 3 ltac:(lia)) as H3.
  unfold reconcileCollection, reconciled, try_catch, bind, getCollections.
  rewrite service_ok by done.
  destruct (qdrant w !! "pdf-docs") as [c|] eqn:Hc.
  - rewrite (collection_listed_Some _ _ c) by done.
    unfold getCollection. rewrite service_ok
      by (rewrite length_calls_log, <- Nat.add_1_r; done).
    simpl qdrant. rewrite Hc.
    destruct (vec_size c =? d)%Z eqn:Hd; cbn [negb]; cbv beta iota.
    + unfold ret. f_equal. unfold log; simpl. by rewrite <- app_assoc.
    + unfold deleteCollection, createCollection.
      rewrite service_ok.
      2:{ rewrite !length_calls_log.
          replace (S (S (length (calls w)))) with (length (calls w) + 2) by lia.
          done. }
      cbv beta iota. rewrite service_ok.
      2:{ simpl calls. rewrite !length_app. simpl.
          replace (length (calls w) + 1 + 1 + 1) with (length (calls w) + 3) by lia.
          done. }
      simpl qdrant. rewrite lookup_delete_eq.
      f_equal. unfold log; simpl. f_equal. by rewrite <- !app_assoc.
  - rewrite collection_listed_None by done.
    unfold createCollection. rewrite service_ok
      by (rewrite length_calls_log, <- Nat.add_1_r; done).
    simpl qdrant. rewrite Hc. f_equal. unfold log; simpl.
    by rewrite <- app_assoc.
Qed.

Lemma reconciled_size d w :
  vec_size <$> qdrant (reconciled d w) !! "pdf-docs" = Some d.
Proof.
  unfold reconciled.
  destruct (qdrant w !! "pdf-docs") as [c|] eqn:Hc.
  - destruct (vec_size c =? d)%Z eqn:Hd; simpl.
    + rewrite Hc. simpl. f_equal. by apply Z.eqb_eq.
    + by rewrite lookup_insert_eq.
  - simpl. by rewrite lookup_insert_eq.
Qed.

Lemma issued_app w cs q : issued w {| qdrant := q; calls := calls w ++ cs |} = cs.
Proof. unfold issued. simpl. by rewrite drop_app_length. Qed.

(** C1. When the index service answers, the reconciliation of ["pdf-docs"]
    with a probed dimension [d] returns normally and
    - creates the collection with size [d] and cosine distance when it is
      not listed;
    - issues neither a create nor a delete when it is listed with size [d];
    - deletes it and then creates it afresh with size [d] and cosine
      distance when it is listed with another size;
    in every case the collection's size is [d] afterwards. *)
Theorem reconcile_cases (env : Env) (d : Z) (w : World) :
  reachable env w 4 →
  ∃ w', reconcileCollection env d w = (Ok tt, w')
    ∧ vec_size <$> qdrant w' !! "pdf-docs" = Some d
    ∧ match qdrant w !! "pdf-docs" with
      | None =>
          issued w w' = [GetCollections; CreateCollection "pdf-docs" d Cosine]
          ∧ qdrant w' = <["pdf-docs" := mkCollection d Cosine []]> (qdrant w)
      | Some c =>
          if (vec_size c =? d)%Z then
            issued w w' = [GetCollections; GetCollection "pdf-docs"]
            ∧ qdrant w' = qdrant w
          else
            issued w w' = [GetCollections; GetCollection "pdf-docs";
                           DeleteCollection "pdf-docs";
                           CreateCollection "pdf-docs" d Cosine]
            ∧ qdrant w' = <["pdf-docs" := mkCollection d Cosine []]>
                            (delete "pdf-docs" (qdrant w))
      end.
Proof.
  intros H. exists (reconciled d w).
  split; [by apply reconcileCollection_reachable|].
  split; [apply reconciled_size|].
  unfold reconciled.
  destruct (qdrant w !! "pdf-docs") as [c|]; [destruct (vec_size c =? d)%Z|];
    by rewrite issued_app.
Qed.

(** The resync of the spec: a collection of size 768 and a probed
    dimension of 1024. *)
Lemma reconcile_cases_witness :
  reachable env_120 stale 4
  ∧ ∃ w', reconcileCollection env_120 1024 stale = (Ok tt, w')
      ∧ vec_size <$> qdrant w' !! "pdf-docs" = Some 1024%Z
      ∧ issued stale w' = [GetCollections; GetCollection "pdf-docs";
                           DeleteCollection "pdf-docs";
                           CreateCollection "pdf-docs" 1024 Cosine].
Proof.
  assert (reachable env_120 stale 4) as H by (intros i _; reflexivity).
  split; [exact H|].
  destruct (reconcile_cases env_120 1024 stale H) as (w' & Hrun & Hsize & Hcase).
  vm_compute in Hcase. destruct Hcase as [Hcalls _].
  exists w'. split; [exact Hrun|]. split; [exact Hsize|]. exact Hcalls.
Defined.

(** A reconciliation that finds the collection with the probed size
    changes nothing in the index service and only reads from it, even
    when the service stops answering. *)
Lemma reconcileCollection_settled env d w c :
  qdrant w !! "pdf-docs" = Some c → vec_size c = d →
  ∃ r cs, reconcileCollection env d w = (r, {| qdrant := qdrant w; calls := calls w ++ cs |})
    ∧ (cs = [GetCollections] ∨ cs = [GetCollections; GetCollection "pdf-docs"])
    ∧ (reachable env w 2 → r = Ok tt ∧ cs = [GetCollections; GetCollection "pdf-docs"]).
Proof.
  intros Hc Hd.
  unfold reconcileCollection, try_catch, bind, getCollections, service at 1.
  destruct (fault env (length (calls w))) as [e|] eqn:H0.
  { exists (Err e), [GetCollections]. split; [done|]. split; [by left|].
    intros H. apply reachable_now in H. congruence. }
  rewrite (collection_listed_Some _ _ c) by done.
  unfold getCollection, service.
  destruct (fault env (length (calls (log GetCollections w)))) as [e|] eqn:H1.
  { exists (Err e), [GetCollections; GetCollection "pdf-docs"].
    split; [by rewrite <- log_log_calls|]. split; [by right|].
    intros H. specialize (H 1 ltac:(lia)).
    rewrite length_calls_log, <- Nat.add_1_r in H1. congruence. }
  simpl qdrant. rewrite Hc. cbv beta iota.
  rewrite (proj2 (Z.eqb_eq _ _) Hd). cbn [negb].
  exists (Ok tt), [GetCollections; GetCollection "pdf-docs"].
  split; [by rewrite <- log_log_calls|]. split; [by right|]. done.
Qed.

(** C2. Reconciling twice in succession with the same dimension [d]: the
    first run (answered by the index service) returns normally; the second
    run leaves the index service as the first left it, with ["pdf-docs"]
    of size [d], and issues no create and no delete, only the two reads
    [getCollections] and [getCollection], and returns normally when those
    are answered. *)
Theorem reconcile_idempotent (env : Env) (d : Z) (w : World) :
  reachable env w 4 →
  ∃ w1 r2 w2,
    reconcileCollection env d w = (Ok tt, w1)
    ∧ reconcileCollection env d w1 = (r2, w2)
    ∧ qdrant w2 = qdrant w1
    ∧ vec_size <$> qdrant w2 !! "pdf-docs" = Some d
    ∧ existsb creates_or_deletes (issued w1 w2) = false
    ∧ (reachable env w1 2 →
       r2 = Ok tt ∧ issued w1 w2 = [GetCollections; GetCollection "pdf-docs"]).
Proof.
  intros H.
  pose proof (reconcileCollection_reachable env d w H) as Hrun.
  pose proof (reconciled_size d w) as Hsize.
  set (w1 := reconciled d w) in *.
  destruct (qdrant w1 !! "pdf-docs") as [c|] eqn:Hc; [|done].
  injection Hsize as Hsize.
  destruct (reconcileCollection_settled env d w1 c Hc Hsize)
    as (r2 & cs & Hrun2 & Hcs & Hok).
  exists w1, r2, {| qdrant := qdrant w1; calls := calls w1 ++ cs |}.
  rewrite issued_app. simpl qdrant. rewrite Hc. simpl.
  repeat split; try done.
  - by rewrite Hsize.
  - by destruct Hcs as [-> | ->].
  - by apply Hok.
  - by apply Hok.
Qed.

(** Two reconciliations with dimension 768 of an index service without
    collections. *)
Lemma reconcile_idempotent_witness :
  reachable env_120 fresh 4
  ∧ ∃ w1 r2 w2,
      reconcileCollection env_120 768 fresh = (Ok tt, w1)
      ∧ reconcileCollection env_120 768 w1 = (r2, w2)
      ∧ qdrant w2 = qdrant w1
      ∧ vec_size <$> qdrant w2 !! "pdf-docs" = Some 768%Z
      ∧ existsb creates_or_deletes (issued w1 w2) = false.
Proof.
  assert (reachable env_120 fresh 4) as H by (intros i _; reflexivity).
  split; [exact H|].
  destruct (reconcile_idempotent env_120 768 fresh H)
    as (w1 & r2 & w2 & H1 & H2 & H3 & H4 & H5 & _).
  exists w1, r2, w2. repeat split; assumption.
Defined.

(** ** The batch loop *)

Lemma upserts_app cs1 cs2 : upserts (cs1 ++ cs2) = upserts cs1 ++ upserts cs2.
Proof. apply omap_app. Qed.

Lemma issued_extend w w' cs : calls w' = calls w ++ cs → issued w w' = cs.
Proof. intros H. unfold issued. by rewrite H, drop_app_length. Qed.

Lemma group_count_lt n j : batchSize * j < n ↔ j < group_count n.
Proof.
  unfold group_count, batchSize. simpl Nat.sub.
  pose proof (Nat.div_mod_eq (n + 49) 50).
  pose proof (Nat.mod_upper_bound (n + 49) 50).
  lia.
Qed.

Lemma batchLoop_step env cs i w :
  batchLoop env cs i w =
    if decide (i < length cs) then
      (addDocuments env (slice cs i (i + batchSize)) ;;;
       (if i + batchSize <? length cs then sleep 1000 else ret tt) ;;;
       batchLoop env cs (i + batchSize)) w
    else (Ok tt, w).
Proof.
  rewrite batchLoop_equation_1. unfold batchLoop_unfold_clause_1.
  destruct (lt_dec i (length cs)); case_decide; try lia; done.
Qed.

Lemma addDocuments_calls env b w r w' :
  addDocuments env b w = (r, w') → calls w' = calls w ++ [AddDocuments b].
Proof.
  unfold addDocuments, service. intros H.
  destruct (fault env (length (calls w))); [by inversion H|].
  simpl in H. destruct (qdrant w !! "pdf-docs") as [c|]; [|by inversion H].
  destruct (forallb _ _); by inversion H.
Qed.

Lemma pause_calls (b : bool) w r w' :
  (if b then sleep 1000 else ret tt) w = (r, w') →
  r = Ok tt ∧ qdrant w' = qdrant w
  ∧ calls w' = calls w ++ (if b then [Sleep 1000] else []).
Proof.
  destruct b; unfold sleep, quiet, ret; intros H; inversion H; simpl.
  - done.
  - by rewrite app_nil_r.
Qed.

(** Whatever its outcome, the loop started at group [j0] has called
    [addDocuments] on the groups [j0], [j0 + 1], ... in order, without
    skipping one; when it returns normally it has reached the last. *)
Lemma batchLoop_upserts env cs m : ∀ j0 w r w',
  group_count (length cs) = j0 + m →
  batchLoop env cs (batchSize * j0) w = (r, w') →
  ∃ log' k, calls w' = calls w ++ log'
    ∧ upserts log' = map (group cs) (seq j0 k)
    ∧ k ≤ m
    ∧ (r = Ok tt → k = m).
Proof.
  induction m as [|m IH]; intros j0 w r w' Hcount Hrun;
    rewrite batchLoop_step in Hrun.
  - case_decide as Hlt.
    + apply group_count_lt in Hlt. lia.
    + inversion Hrun; subst. exists [], 0. by rewrite app_nil_r.
  - case_decide as Hlt.
    2:{ exfalso. apply Hlt, group_count_lt. lia. }
    unfold bind at 1 in Hrun.
    destruct (addDocuments env _ w) as [[[]|e] w1] eqn:Hadd.
    2:{ inversion Hrun; subst. apply addDocuments_calls in Hadd.
        exists [AddDocuments (group cs j0)], 1.
        split; [done|]. split; [done|]. split; [lia|]. done. }
    apply addDocuments_calls in Hadd.
    unfold bind at 1 in Hrun.
    destruct ((if _ <? _ then sleep 1000 else ret tt) w1) as [r2 w2] eqn:Hpause.
    apply pause_calls in Hpause as (-> & _ & Hcalls2).
    replace (batchSize * j0 + batchSize) with (batchSize * S j0) in Hrun by lia.
    apply IH in Hrun as (log' & k & Hcalls3 & Hups & Hk & Hok); [|lia].
    exists (AddDocuments (group cs j0) ::
            (if batchSize * j0 + batchSize <? length cs then [Sleep 1000] else [])
            ++ log'), (S k).
    split.
    { rewrite Hcalls3, Hcalls2, Hadd. by rewrite <- !app_assoc. }
    split.
    { change (upserts (?c :: ?l)) with (upserts ([c] ++ l)).
      rewrite !upserts_app, Hups. by destruct (_ <? _). }
    split; [lia|]. intros Hr. f_equal. by apply Hok.
Qed.

Lemma group_length cs j :
  length (group cs j) = (batchSize `min` (length cs - batchSize * j)).
Proof.
  unfold group, slice. rewrite length_take, length_drop. f_equal. lia.
Qed.

Lemma concat_groups_upto cs m :
  concat (map (group cs) (seq 0 m)) = take (batchSize * m) cs.
Proof.
  induction m as [|m IH].
  - by rewrite Nat.mul_0_r, take_0.
  - rewrite seq_S, map_app, concat_app, IH. simpl. rewrite app_nil_r.
    unfold group, slice.
    replace (batchSize * m + batchSize - batchSize * m) with batchSize by lia.
    rewrite take_take_drop. f_equal. unfold batchSize. lia.
Qed.

Lemma group_count_covers n : n ≤ batchSize * group_count n.
Proof.
  destruct (decide (batchSize * group_count n < n)) as [H|H]; [|lia].
  apply group_count_lt in H. lia.
Qed.

Lemma concat_groups cs : concat (groups cs) = cs.
Proof.
  unfold groups. rewrite concat_groups_upto. apply take_ge, group_count_covers.
Qed.

Lemma length_groups cs : length (groups cs) = group_count (length cs).
Proof. unfold groups. by rewrite length_map, length_seq. Qed.

Lemma groups_bounded cs :
  Forall (λ g, 0 < length g ≤ batchSize) (groups cs).
Proof.
  unfold groups. apply Forall_forall. intros g Hg.
  apply list_elem_of_fmap in Hg as (j & -> & Hj).
  apply elem_of_seq in Hj. cbv beta. rewrite group_length.
  assert (batchSize * j < length cs) by (apply group_count_lt; lia).
  unfold batchSize in *. lia.
Qed.

Lemma groups_sizes_120 cs :
  length cs = 120 → map length (groups cs) = [50; 50; 20].
Proof.
  intros H. unfold groups. rewrite H.
  change (group_count 120) with 3. simpl.
  rewrite !group_length, H. reflexivity.
Qed.

(** ** What a run writes to the log *)

Lemma emits_ret {A} P (a : A) : emits P (ret a).
Proof. intros w r w' H. inversion H. exists []. by rewrite app_nil_r. Qed.

Lemma emits_throw {A} P e : emits P (@throw A e).
Proof. intros w r w' H. inversion H. exists []. by rewrite app_nil_r. Qed.

Lemma emits_bind {A B} P (m : M A) (k : A → M B) :
  emits P m → (∀ a, emits P (k a)) → emits P (bind m k).
Proof.
  intros Hm Hk w r w' H. unfold bind in H.
  destruct (m w) as [[a|e] w1] eqn:Hmw.
  - apply Hm in Hmw as (cs1 & E1 & F1). apply Hk in H as (cs2 & E2 & F2).
    exists (cs1 ++ cs2). rewrite E2, E1, app_assoc. split; [done|].
    by apply Forall_app.
  - inversion H; subst. by apply Hm in Hmw.
Qed.

Lemma emits_try_catch {A} P (m : M A) (h : Error → M A) :
  emits P m → (∀ e, emits P (h e)) → emits P (try_catch m h).
Proof.
  intros Hm Hh w r w' H. unfold try_catch in H.
  destruct (m w) as [[a|e] w1] eqn:Hmw.
  - inversion H; subst. by apply Hm in Hmw.
  - apply Hm in Hmw as (cs1 & E1 & F1). apply Hh in H as (cs2 & E2 & F2).
    exists (cs1 ++ cs2). rewrite E2, E1, app_assoc. split; [done|].
    by apply Forall_app.
Qed.

Lemma emits_service {A} env P c (answer : World → Result A * World) :
  P c → (∀ w r w', answer w = (r, w') → calls w' = calls w) →
  emits P (service env c answer).
Proof.
  intros Hc Hans w r w' H. unfold service in H. exists [c].
  split; [|by repeat constructor].
  destruct (fault env (length (calls w))).
  - by inversion H.
  - by apply Hans in H.
Qed.

Lemma emits_getCollections env P : P GetCollections → emits P (getCollections env).
Proof. intros H. apply emits_service; [done|]. intros ??? E. by inversion E. Qed.

Lemma emits_getCollection env P n :
  P (GetCollection n) → emits P (getCollection env n).
Proof.
  intros H. apply emits_service; [done|]. intros w ?? E.
  destruct (qdrant w !! n); by inversion E.
Qed.

Lemma emits_deleteCollection env P n :
  P (DeleteCollection n) → emits P (deleteCollection env n).
Proof. intros H. apply emits_service; [done|]. intros ??? E. by inversion E. Qed.

Lemma emits_createCollection env P n d dist :
  P (CreateCollection n d dist) → emits P (createCollection env n d dist).
Proof.
  intros H. apply emits_service; [done|]. intros w ?? E.
  destruct (qdrant w !! n); by inversion E.
Qed.

Lemma emits_reconcileCollection env P d :
  P GetCollections → P (GetCollection "pdf-docs") →
  P (DeleteCollection "pdf-docs") → P (CreateCollection "pdf-docs" d Cosine) →
  emits P (reconcileCollection env d).
Proof.
  intros H1 H2 H3 H4. unfold reconcileCollection.
  apply emits_try_catch; [|intros; apply emits_throw].
  apply emits_bind; [by apply emits_getCollections|]. intros names.
  destruct (existsb _ names); [|by apply emits_createCollection].
  apply emits_bind; [by apply emits_getCollection|]. intros info.
  destruct (negb _); [|apply emits_ret].
  apply emits_bind; [by apply emits_deleteCollection|]. intros _.
  by apply emits_createCollection.
Qed.

(** ** The job processor, stage by stage *)

(** The processor is [prepare], then the batch loop, then the success
    record; any error is thrown again as it is. *)
Lemma processor_prepare env job w :
  processor env job w =
    match prepare env job w with
    | (Ok splitDocs, w0) =>
        match batchLoop env splitDocs 0 w0 with
        | (Ok _, w') => (Ok {| success := true; docCount := length splitDocs |}, w')
        | (Err e, w') => (Err e, w')
        end
    | (Err e, w0) => (Err e, w0)
    end.
Proof.
  unfold processor, prepare, reachLoading, jobFilePath, try_catch, bind, throw, ret.
  destruct (parseJobData env (job_data job) w) as [[fileInfo|e] w1]; [|done].
  destruct (resolveFilePath env fileInfo w1) as [[filePath|e] w2]; [|done].
  destruct (fs_existsSync env filePath w2) as [[found|e] w3]; [|done].
  destruct (negb found); [done|].
  destruct (getEmbeddingDimension env w3) as [[dimension|e] w4]; [|done].
  destruct (reconcileCollection env dimension w4) as [[[]|e] w5]; [|done].
  destruct (pdf_load env filePath w5) as [[docs|e] w6]; [|done].
  destruct (splitDocuments env docs w6) as [[splitDocs|e] w7]; [|done].
  by destruct (batchLoop env splitDocs 0 w7) as [[[]|e] w8].
Qed.

Lemma get_prop_pure v name w : ∃ r, get_prop v name w = (r, w).
Proof. destruct v; simpl; unfold ret, throw; eauto. Qed.

Lemma path_join_js_pure env a b w : ∃ r, path_join_js env a b w = (r, w).
Proof. destruct a, b; simpl; unfold ret, throw; eauto. Qed.

Lemma parseJobData_pure env data w : ∃ r, parseJobData env data w = (r, w).
Proof.
  destruct data; simpl; unfold ret, throw; eauto.
  destruct (JSON_parse env s); eauto.
Qed.

Lemma resolveFilePath_pure env fileInfo w :
  ∃ r, resolveFilePath env fileInfo w = (r, w).
Proof.
  unfold resolveFilePath, bind.
  destruct (get_prop_pure fileInfo "path" w) as [[p|e] ->]; [|eauto].
  destruct (truthy p); [unfold ret; eauto|].
  destruct (get_prop_pure fileInfo "destination" w) as [[d|e] ->]; [|eauto].
  destruct (get_prop_pure fileInfo "filename" w) as [[f|e] ->]; [|eauto].
  apply path_join_js_pure.
Qed.

Lemma jobFilePath_pure env job w : ∃ r, jobFilePath env job w = (r, w).
Proof.
  unfold jobFilePath, bind.
  destruct (parseJobData_pure env (job_data job) w) as [[fileInfo|e] ->]; [|eauto].
  apply resolveFilePath_pure.
Qed.

Lemma fs_existsSync_run env filePath w :
  fs_existsSync env filePath w = (Ok (on_disk env filePath), log (ExistsSync filePath) w).
Proof. done. Qed.



(** ** The batch indexer within a job *)

Lemma upserts_none cs : Forall not_upsert cs → upserts cs = [].
Proof.
  induction 1 as [|c cs Hc _ IH]; [done|].
  change (c :: cs) with ([c] ++ cs). by rewrite upserts_app, Hc, IH.
Qed.

(** A run that reaches the loading step has resolved a path to a file on
    disk, and has issued the existence check, the probe and calls on the
    collections of the index service, which now has ["pdf-docs"]. *)
Lemma reachLoading_inv env job w filePath w2 :
  reachLoading env job w = (Ok filePath, w2) →
  ∃ p cs,
    filePath = VString p
    ∧ fst (jobFilePath env job w) = Ok (VString p)
    ∧ fs_exists env p = true
    ∧ calls w2 = calls w ++ [ExistsSync (VString p); EmbedQuery "test query"] ++ cs
    ∧ Forall not_upsert cs
    ∧ Forall (λ c, c ≠ PdfLoad (VString p)) cs.
Proof.
  unfold reachLoading, bind. intros H.
  destruct (jobFilePath_pure env job w) as [[fp|e] Hr];
    rewrite Hr in *; [|done].
  rewrite fs_existsSync_run in H.
  destruct (on_disk env fp) eqn:Hdisk; [|done]. cbn [negb] in H.
  destruct fp as [| | | |p|]; try done. simpl in Hdisk.
  destruct (probe_returns env (log (ExistsSync (VString p)) w)) as [d Hd].
  rewrite Hd in H.
  destruct (reconcileCollection env d _) as [[[]|e] w3] eqn:Hrec; [|done].
  inversion H; subst; clear H.
  apply (emits_reconcileCollection env
           (λ c, not_upsert c ∧ c ≠ PdfLoad (VString p))) in Hrec
    as (cs & Hcs & Hnone); try done.
  exists p, cs. split; [done|]. split; [done|]. split; [done|].
  split; [simpl in Hcs; by rewrite Hcs, <- !app_assoc|].
  apply Forall_and in Hnone. done.
Qed.

(** A successful [prepare] has found the file on disk, has loaded and
    split it as the last two calls, and has written nothing to the
    collection's points before. *)
Lemma prepare_ok_inv env job w splitDocs w0 :
  prepare env job w = (Ok splitDocs, w0) →
  ∃ p pre,
    fst (jobFilePath env job w) = Ok (VString p)
    ∧ fs_exists env p = true
    ∧ splitDocs = split_chunks env (pdf_pages env p)
    ∧ calls w0 = calls w ++ pre ++ [PdfLoad (VString p);
                                    SplitDocuments (pdf_pages env p)]
    ∧ upserts pre = [].
Proof.
  unfold prepare, bind at 1. intros H.
  destruct (reachLoading env job w) as [[filePath|e] w2] eqn:Hreach; [|done].
  apply reachLoading_inv in Hreach
    as (p & cs & -> & Hpath & Hdisk & Hcs & Hnone & _).
  unfold bind, pdf_load, splitDocuments, service, ret in H.
  destruct (fault env (length (calls w2))); [done|].
  destruct (fault env (length (calls (log _ w2)))); [done|].
  inversion H; subst; clear H.
  exists p, ([ExistsSync (VString p); EmbedQuery "test query"] ++ cs).
  split; [done|]. split; [done|]. split; [done|]. split.
  - simpl. rewrite Hcs. by rewrite <- !app_assoc.
  - by rewrite upserts_app, (upserts_none cs).
Qed.

(** C4. A job that succeeds has written its chunk sequence of length [n]
    in [ceil(n / 50)] upserts: upsert [j] carries the chunks [50 j] to
    [50 j + 49], so the groups are consecutive, in the original order,
    non-empty and of at most 50 chunks, and together they are the whole
    sequence; the reported [docCount] is [n].  With 120 chunks the upserts
    have sizes 50, 50 and 20. *)
Theorem batches_partition (env : Env) (job : Job) (w w' : World) (r : JobResult) :
  processor env job w = (Ok r, w') →
  ∃ p, fst (jobFilePath env job w) = Ok (VString p) ∧
    let chunks := split_chunks env (pdf_pages env p) in
    let n := length chunks in
    upserts (issued w w') =
      map (λ j, slice chunks (50 * j) (50 * j + 50)) (seq 0 ((n + 49) / 50))
    ∧ length (upserts (issued w w')) = (n + 49) / 50
    ∧ Forall (λ g, 0 < length g ≤ 50) (upserts (issued w w'))
    ∧ concat (upserts (issued w w')) = chunks
    ∧ r = {| success := true; docCount := n |}
    ∧ (n = 120 → map length (upserts (issued w w')) = [50; 50; 20]).
Proof.
  rewrite processor_prepare. intros H.
  destruct (prepare env job w) as [[splitDocs|e] w0] eqn:Hprep; [|done].
  destruct (batchLoop env splitDocs 0 w0) as [[[]|e] w1] eqn:Hloop; [|done].
  inversion H; subst; clear H.
  apply prepare_ok_inv in Hprep as (p & pre & Hpath & _ & -> & Hcalls & Hpre).
  exists p. split; [done|]. cbv zeta.
  remember (split_chunks env (pdf_pages env p)) as chunks eqn:Hchunks.
  remember (length chunks) as n eqn:Hn.
  change 0 with (batchSize * 0) in Hloop.
  assert (group_count (length chunks) = 0 + group_count n) as Hcount
    by (by subst n).
  destruct (batchLoop_upserts env chunks _ _ _ _ _ Hcount Hloop)
    as (log' & k & Hcalls' & Hups & _ & Hk).
  specialize (Hk eq_refl). subst k.
  assert (upserts (issued w w') = groups chunks) as ->.
  { rewrite (issued_extend w w' (pre ++ [PdfLoad (VString p);
                                         SplitDocuments (pdf_pages env p)] ++ log')).
    - rewrite !upserts_app, Hpre, Hups. by subst n.
    - rewrite Hcalls', Hcalls. by rewrite <- !app_assoc. }
  subst n.
  split; [reflexivity|]. split; [apply length_groups|].
  split; [apply groups_bounded|]. split; [apply concat_groups|].
  split; [done|]. apply groups_sizes_120.
Qed.

(** A job of 120 chunks: three upserts of 50, 50 and 20 chunks. *)
Lemma batches_partition_witness :
  processor env_120 job_a fresh
    = (Ok {| success := true; docCount := 120 |},
       snd (processor env_120 job_a fresh))
  ∧ map length (upserts (issued fresh (snd (processor env_120 job_a fresh))))
    = [50; 50; 20].
Proof.
  assert (processor env_120 job_a fresh
          = (Ok {| success := true; docCount := 120 |},
             snd (processor env_120 job_a fresh))) as H
    by (vm_compute; reflexivity).
  split; [exact H|].
  destruct (batches_partition env_120 job_a fresh _ _ H)
    as (p & Hp & _ & _ & _ & _ & _ & H120).
  vm_compute in Hp. injection Hp as <-.
  apply H120. vm_compute. reflexivity.
Defined.

(** ** A failing batch *)

Lemma addDocuments_ok env batch w c :
  fault env (length (calls w)) = None →
  qdrant w !! "pdf-docs" = Some c →
  Forall (λ d, fits c (embed_point env d) = true) batch →
  addDocuments env batch w =
    (Ok tt,
     {| qdrant := <["pdf-docs" :=
                     mkCollection (vec_size c) (vec_distance c)
                       (points c ++ map (embed_point env) batch)]> (qdrant w);
        calls := calls w ++ [AddDocuments batch] |}).
Proof.
  intros Hf Hc Hfits. unfold addDocuments. rewrite service_ok by done.
  simpl qdrant. rewrite Hc.
  assert (forallb (fits c) (map (embed_point env) batch) = true) as ->; [|done].
  apply forallb_forall. intros pt Hin. apply in_map_iff in Hin as (d & <- & Hd).
  rewrite Forall_forall in Hfits. apply Hfits. by apply list_elem_of_In.
Qed.




(** ** The loading step *)




(** ** The job payload *)



(** * Further properties of the worker *)

(** ** Payloads that do not resolve *)

(** Parsing and path resolution never touch the world, and their result
    does not depend on it. *)
Lemma get_prop_const v name : ∃ r, ∀ w, get_prop v name w = (r, w).
Proof. destruct v; simpl; unfold ret, throw; eauto. Qed.

Lemma path_join_js_const env a b : ∃ r, ∀ w, path_join_js env a b w = (r, w).
Proof. destruct a, b; simpl; unfold ret, throw; eauto. Qed.

Lemma parseJobData_const env data : ∃ r, ∀ w, parseJobData env data w = (r, w).
Proof.
  destruct data; simpl; unfold ret, throw; eauto.
  destruct (JSON_parse env s); eauto.
Qed.

Lemma resolveFilePath_const env fileInfo :
  ∃ r, ∀ w, resolveFilePath env fileInfo w = (r, w).
Proof.
  unfold resolveFilePath, bind.
  destruct (get_prop_const fileInfo "path") as [[p|e] Hp].
  2:{ exists (Err e). intros w. by rewrite Hp. }
  destruct (truthy p) eqn:Ht.
  { exists (Ok p). intros w. by rewrite Hp, Ht. }
  destruct (get_prop_const fileInfo "destination") as [[d|e] Hd].
  2:{ exists (Err e). intros w. by rewrite Hp, Ht, Hd. }
  destruct (get_prop_const fileInfo "filename") as [[f|e] Hf].
  2:{ exists (Err e). intros w. by rewrite Hp, Ht, Hd, Hf. }
  destruct (path_join_js_const env d f) as [r Hr].
  exists r. intros w. by rewrite Hp, Ht, Hd, Hf, Hr.
Qed.

Lemma jobFilePath_const env job : ∃ r, ∀ w, jobFilePath env job w = (r, w).
Proof.
  unfold jobFilePath, bind.
  destruct (parseJobData_const env (job_data job)) as [[v|e] Hv].
  2:{ exists (Err e). intros w. by rewrite Hv. }
  destruct (resolveFilePath_const env v) as [r Hr].
  exists r. intros w. by rewrite Hv, Hr.
Qed.

Lemma jobFilePath_any_world env job w w' :
  fst (jobFilePath env job w) = fst (jobFilePath env job w').
Proof. destruct (jobFilePath_const env job) as [r Hr]. by rewrite !Hr. Qed.

(** A job whose path cannot be resolved fails with the error of the
    resolution, before any collaborator is called. *)
Lemma processor_unresolved env job w e :
  fst (jobFilePath env job w) = Err e →
  processor env job w = (Err e, w).
Proof.
  intros H. rewrite processor_prepare. unfold prepare, reachLoading, bind.
  destruct (jobFilePath_const env job) as [r Hr]. rewrite Hr in *.
  simpl in H. by subst r.
Qed.

(** X1. A string payload that is not JSON makes the job fail with the
    [SyntaxError] of [JSON.parse]; no collaborator has been called and the
    world is as it was. *)
Theorem malformed_json_rejected (env : Env) (id s : string) (w : World) :
  JSON_parse env s = None →
  processor env (mkJob id (VString s)) w = (Err SyntaxError, w).
Proof.
  intros H. apply processor_unresolved.
  unfold jobFilePath, bind. simpl. by rewrite H.
Qed.

(** A payload that is not JSON. *)
Lemma malformed_json_rejected_witness :
  JSON_parse env_120 "{path:" = None
  ∧ processor env_120 job_bad_json fresh = (Err SyntaxError, fresh).
Proof.
  assert (JSON_parse env_120 "{path:" = None) as H by reflexivity.
  split; [exact H|]. exact (malformed_json_rejected env_120 "4" "{path:" fresh H).
Defined.

(** X2. JSON text is parsed once: when it denotes a string, that string is
    not parsed again, even if it is the JSON text of a valid payload; the
    job fails with the [TypeError] of [path.join], before any collaborator
    is called. *)
Theorem json_string_not_reparsed (env : Env) (id s s' : string) (w : World) :
  JSON_parse env s = Some (VString s') →
  processor env (mkJob id (VString s)) w
    = (Err (TypeError "The path argument must be of type string"), w).
Proof.
  intros H. apply processor_unresolved.
  unfold jobFilePath, bind. simpl. by rewrite H.
Qed.

(** JSON text whose value is the JSON text of [{path: /docs/a.pdf}]. *)
Lemma json_string_not_reparsed_witness :
  JSON_parse env_double_encoded "quoted" = Some (VString payload_a_json)
  ∧ JSON_parse env_120 payload_a_json = Some payload_a
  ∧ processor env_double_encoded (mkJob "6" (VString "quoted")) fresh
    = (Err (TypeError "The path argument must be of type string"), fresh).
Proof.
  assert (JSON_parse env_double_encoded "quoted" = Some (VString payload_a_json))
    as H by reflexivity.
  split; [exact H|]. split; [reflexivity|].
  exact (json_string_not_reparsed env_double_encoded "6" "quoted" _ fresh H).
Defined.

(** X3. A payload that is [null] or [undefined], given as such or denoted
    by the JSON text, makes the job fail with the [TypeError] of the
    property read, before any collaborator is called. *)
Theorem null_payload_rejected (env : Env) (job : Job) (w : World) (v : JSValue) :
  fst (parseJobData env (job_data job) w) = Ok v →
  v = VNull ∨ v = VUndefined →
  processor env job w
    = (Err (TypeError "Cannot read properties of null or undefined"), w).
Proof.
  intros Hparse Hv. apply processor_unresolved.
  unfold jobFilePath, bind.
  destruct (parseJobData_const env (job_data job)) as [r Hr]. rewrite Hr in *.
  simpl in Hparse. subst r. by destruct Hv as [-> | ->].
Qed.

(** The payload [null]. *)
Lemma null_payload_rejected_witness :
  fst (parseJobData env_120 (job_data job_null) fresh) = Ok VNull
  ∧ processor env_120 job_null fresh
    = (Err (TypeError "Cannot read properties of null or undefined"), fresh).
Proof.
  assert (fst (parseJobData env_120 (job_data job_null) fresh) = Ok VNull)
    as H by reflexivity.
  split; [exact H|].
  exact (null_payload_rejected env_120 job_null fresh VNull H (or_introl eq_refl)).
Defined.

(** X4. A payload without a truthy [path] and without both a string
    [destination] and a string [filename] makes the job fail with the
    [TypeError] of [path.join], before any collaborator is called. *)
Theorem unresolvable_payload_rejected (env : Env) (job : Job) (w : World)
    (v : JSValue) :
  fst (parseJobData env (job_data job) w) = Ok v →
  v ≠ VNull → v ≠ VUndefined →
  truthy (property v "path") = false →
  is_string (property v "destination") && is_string (property v "filename") = false →
  processor env job w
    = (Err (TypeError "The path argument must be of type string"), w).
Proof.
  intros Hparse Hnull Hundef Hpath Hjoin. apply processor_unresolved.
  unfold jobFilePath, bind.
  destruct (parseJobData_const env (job_data job)) as [r Hr]. rewrite Hr in *.
  simpl in Hparse. subst r.
  assert (∀ name, get_prop v name w = (Ok (property v name), w)) as Hget
    by (intros name; by destruct v).
  unfold resolveFilePath, bind.
  rewrite (Hget "path"), Hpath, (Hget "destination"), (Hget "filename").
  destruct (property v "destination"), (property v "filename");
    simpl in Hjoin; done.
Qed.

(** A payload with a directory but no file name. *)
Lemma unresolvable_payload_rejected_witness :
  fst (parseJobData env_120 payload_no_filename fresh) = Ok payload_no_filename
  ∧ processor env_120 (mkJob "7" payload_no_filename) fresh
    = (Err (TypeError "The path argument must be of type string"), fresh).
Proof.
  assert (fst (parseJobData env_120 (job_data (mkJob "7" payload_no_filename)) fresh)
          = Ok payload_no_filename) as H by reflexivity.
  split; [exact H|].
  apply (unresolvable_payload_rejected env_120 (mkJob "7" payload_no_filename)
           fresh payload_no_filename H); [discriminate | discriminate | reflexivity..].
Defined.

(** ** What every run respects *)

Section Respects.

Context (R : World → World → Prop) `{!PreOrder R}.

Set Default Proof Using "All".

Lemma respects_ret {A} (a : A) : respects R (ret a).
Proof. intros w r w' H. by inversion H. Qed.

Lemma respects_throw {A} e : respects R (@throw A e).
Proof. intros w r w' H. by inversion H. Qed.

Lemma respects_const {A} (m : M A) :
  (∃ r, ∀ w, m w = (r, w)) → respects R m.
Proof. intros [r0 Hm] w r w' H. rewrite Hm in H. by inversion H. Qed.

Lemma respects_bind {A B} (m : M A) (k : A → M B) :
  respects R m → (∀ a, respects R (k a)) → respects R (bind m k).
Proof.
  intros Hm Hk w r w' H. unfold bind in H.
  destruct (m w) as [[a|e] w1] eqn:Hmw.
  - etrans; [by eapply Hm | by eapply Hk].
  - inversion H; subst. by eapply Hm.
Qed.

Lemma respects_try_catch {A} (m : M A) (h : Error → M A) :
  respects R m → (∀ e, respects R (h e)) → respects R (try_catch m h).
Proof.
  intros Hm Hh w r w' H. unfold try_catch in H.
  destruct (m w) as [[a|e] w1] eqn:Hmw.
  - inversion H; subst. by eapply Hm.
  - etrans; [by eapply Hm | by eapply Hh].
Qed.

Lemma respects_service {A} env c (answer : World → Result A * World) :
  (∀ w, R w (log c w)) →
  (∀ w r w', answer (log c w) = (r, w') → R w w') →
  respects R (service env c answer).
Proof.
  intros Hlog Hans w r w' H. unfold service in H.
  destruct (fault env (length (calls w))).
  - inversion H; subst. apply Hlog.
  - by eapply Hans.
Qed.

Lemma respects_batchLoop env cs :
  (∀ b, respects R (addDocuments env b)) →
  respects R (sleep 1000) →
  ∀ i, respects R (batchLoop env cs i).
Proof.
  intros Hadd Hsleep i.
  remember (length cs - i) as k eqn:Hk. revert i Hk.
  induction k as [k IH] using lt_wf_ind. intros i Hk w r w' Hrun.
  rewrite batchLoop_step in Hrun. case_decide as Hlt.
  2:{ by inversion Hrun. }
  revert Hrun. apply respects_bind; [apply Hadd|]. intros _.
  apply respects_bind.
  { destruct (_ <? _); [apply Hsleep | apply respects_ret]. }
  intros _. apply (IH (length cs - (i + batchSize))); [|done].
  unfold batchSize. lia.
Qed.

(** The processor respects what its collaborators respect. *)
Lemma respects_processor env job :
  (∀ fp, respects R (fs_existsSync env fp)) →
  respects R (getEmbeddingDimension env) →
  (∀ d, respects R (reconcileCollection env d)) →
  (∀ fp, respects R (pdf_load env fp)) →
  (∀ docs, respects R (splitDocuments env docs)) →
  (∀ b, respects R (addDocuments env b)) →
  respects R (sleep 1000) →
  respects R (processor env job).
Proof.
  intros Hex Hprobe Hrec Hload Hsplit Hadd Hsleep. unfold processor.
  apply respects_try_catch; [|intros; apply respects_throw].
  apply respects_bind; [apply respects_const, parseJobData_const|]. intros fileInfo.
  apply respects_bind; [apply respects_const, resolveFilePath_const|]. intros fp.
  apply respects_bind; [apply Hex|]. intros found.
  destruct (negb found); [apply respects_throw|].
  apply respects_bind; [apply Hprobe|]. intros d.
  apply respects_bind; [apply Hrec|]. intros _.
  apply respects_bind; [apply Hload|]. intros docs.
  apply respects_bind; [apply Hsplit|]. intros splitDocs.
  apply respects_bind; [by apply respects_batchLoop|]. intros _.
  apply respects_ret.
Qed.

End Respects.

Set Default Proof Using "Type".

(** *** The log only grows *)

#[local] Instance emitted_preorder P : PreOrder (emitted P).
Proof.
  split.
  - intros w. exists []. by rewrite app_nil_r.
  - intros w1 w2 w3 (cs1 & E1 & F1) (cs2 & E2 & F2).
    exists (cs1 ++ cs2). rewrite E2, E1, app_assoc. split; [done|].
    by apply Forall_app.
Qed.

Lemma emitted_log (P : Call → Prop) c w : P c → emitted P w (log c w).
Proof. intros H. exists [c]. split; [done|]. by repeat constructor. Qed.

Lemma emitted_same_calls (P : Call → Prop) c w w' :
  P c → calls w' = calls (log c w) → emitted P w w'.
Proof. intros H E. exists [c]. split; [done|]. by repeat constructor. Qed.

Lemma emits_fs_existsSync env P fp :
  P (ExistsSync fp) → respects (emitted P) (fs_existsSync env fp).
Proof. intros H w r w' E. inversion E. by apply emitted_log. Qed.

Lemma emits_getEmbeddingDimension env P :
  P (EmbedQuery "test query") → respects (emitted P) (getEmbeddingDimension env).
Proof.
  intros H w r w' E. destruct (probe_returns env w) as [d Hd].
  rewrite Hd in E. inversion E. by apply emitted_log.
Qed.

Lemma emits_pdf_load env P fp :
  P (PdfLoad fp) → respects (emitted P) (pdf_load env fp).
Proof.
  intros H. respecting respects_service; [intros; by apply emitted_log|].
  intros w r w' E. apply (emitted_same_calls P (PdfLoad fp)); [done|].
  destruct fp; by inversion E.
Qed.

Lemma emits_splitDocuments env P docs :
  P (SplitDocuments docs) → respects (emitted P) (splitDocuments env docs).
Proof.
  intros H. respecting respects_service; [intros; by apply emitted_log|].
  intros w r w' E. inversion E. by apply emitted_log.
Qed.

Lemma emits_addDocuments env P b :
  P (AddDocuments b) → respects (emitted P) (addDocuments env b).
Proof.
  intros H w r w' E. apply addDocuments_calls in E.
  exists [AddDocuments b]. split; [done|]. by repeat constructor.
Qed.

Lemma emits_sleep P ms : P (Sleep ms) → respects (emitted P) (sleep ms).
Proof. intros H w r w' E. inversion E. by apply emitted_log. Qed.

(** The processor after the existence check (worker.js 47-150). *)
Lemma emits_after_check env P fp (found : bool) :
  (∀ c, P c) →
  respects (emitted P)
    (if negb found then throw (FileNotFound fp)
     else
       let* dimension := getEmbeddingDimension env in
       reconcileCollection env dimension ;;;
       let* docs := pdf_load env fp in
       let* splitDocs := splitDocuments env docs in
       batchLoop env splitDocs 0 ;;;
       ret {| success := true; docCount := length splitDocs |}).
Proof.
  intros HP. destruct (negb found); [by respecting respects_throw|].
  respecting respects_bind; [by apply emits_getEmbeddingDimension|]. intros d.
  respecting respects_bind; [by apply (emits_reconcileCollection env P)|].
  intros _. respecting respects_bind; [by apply emits_pdf_load|]. intros docs.
  respecting respects_bind; [by apply emits_splitDocuments|]. intros splitDocs.
  respecting respects_bind; [|intros; by respecting respects_ret].
  respecting respects_batchLoop; [intros; by apply emits_addDocuments|by apply emits_sleep].
Qed.

(** Up to the split, a run issues neither an upsert nor a pause. *)
Lemma prepare_before_indexing env job :
  respects (emitted before_indexing) (prepare env job).
Proof.
  unfold prepare, reachLoading.
  respecting respects_bind.
  { respecting respects_bind; [respecting respects_const; apply jobFilePath_const|].
    intros fp. respecting respects_bind; [by apply emits_fs_existsSync|].
    intros found. destruct (negb found); [by respecting respects_throw|].
    respecting respects_bind; [by apply emits_getEmbeddingDimension|].
    intros d. respecting respects_bind; [|intros; by respecting respects_ret].
    by apply (emits_reconcileCollection env before_indexing). }
  intros fp. respecting respects_bind; [by apply emits_pdf_load|].
  intros docs. by apply emits_splitDocuments.
Qed.


Lemma before_indexing_no_pause cs : Forall before_indexing cs → filter is_pause cs = [].
Proof.
  induction 1 as [|c cs Hc _ IH]; [done|].
  rewrite filter_cons, IH. by destruct c.
Qed.

(** ** Falsy paths *)

(** A job whose path resolves starts with the existence check of that
    path. *)
Lemma processor_first_call env job w fp :
  fst (jobFilePath env job w) = Ok fp →
  ∃ r w' rest, processor env job w = (r, w')
    ∧ issued w w' = ExistsSync fp :: rest.
Proof.
  intros Hpath.
  destruct (jobFilePath_const env job) as [r0 Hr]. rewrite Hr in Hpath.
  simpl in Hpath. subst r0. specialize (Hr w).
  unfold jobFilePath, bind in Hr.
  unfold processor, try_catch. unfold bind at 1.
  destruct (parseJobData_const env (job_data job)) as [[v|e] Hv];
    rewrite Hv in Hr |- *; [|done].
  unfold bind at 1. rewrite Hr. unfold bind at 1. rewrite fs_existsSync_run.
  set (k := if negb _ then _ else _).
  destruct (k (log (ExistsSync fp) w)) as [r w'] eqn:Ek.
  apply (emits_after_check env (λ _, True) fp (on_disk env fp) (λ _, I))
    in Ek as (cs & Hcs & _).
  exists r, w', cs. split; [by destruct r|].
  apply issued_extend. rewrite Hcs. simpl. by rewrite <- app_assoc.
Qed.

(** X5. The [path] property is used only when it is truthy: with an empty
    string (or [0], [false], [null], no [path] at all) and a string
    [destination] and [filename], the file the job checks and loads is
    [path.join(destination, filename)]. *)
Theorem falsy_path_falls_back (env : Env) (job : Job) (w : World)
    (v : JSValue) (d f : string) :
  fst (parseJobData env (job_data job) w) = Ok v →
  truthy (property v "path") = false →
  property v "destination" = VString d →
  property v "filename" = VString f →
  ∃ r w' rest, processor env job w = (r, w')
    ∧ issued w w' = ExistsSync (VString (path_join env d f)) :: rest.
Proof.
  intros Hparse Hpath Hd Hf. apply processor_first_call.
  unfold jobFilePath, bind.
  destruct (parseJobData_const env (job_data job)) as [r Hr]. rewrite Hr in *.
  simpl in Hparse. subst r.
  assert (∃ fields, v = VObject fields) as [fields ->]
    by (destruct v; try done; eauto).
  unfold resolveFilePath, bind. simpl in *. by rewrite Hpath, Hd, Hf.
Qed.

(** A payload with an empty [path]. *)
Lemma falsy_path_falls_back_witness :
  fst (parseJobData env_120 payload_empty_path fresh) = Ok payload_empty_path
  ∧ truthy (property payload_empty_path "path") = false
  ∧ ∃ r w' rest, processor env_120 (mkJob "8" payload_empty_path) fresh = (r, w')
      ∧ issued fresh w' = ExistsSync (VString "uploads/b.pdf") :: rest.
Proof.
  assert (fst (parseJobData env_120 (job_data (mkJob "8" payload_empty_path)) fresh)
          = Ok payload_empty_path) as H by reflexivity.
  assert (truthy (property payload_empty_path "path") = false) as Hp by reflexivity.
  split; [exact H|]. split; [exact Hp|].
  exact (falsy_path_falls_back env_120 (mkJob "8" payload_empty_path) fresh
           payload_empty_path "uploads" "b.pdf" H Hp eq_refl eq_refl).
Defined.

(** ** More on the reconciler *)

Lemma stored_reconciled d w : stored (reconciled d w) = kept d w.
Proof.
  unfold stored, kept, reconciled.
  destruct (qdrant w !! "pdf-docs") as [c|] eqn:Hc.
  - destruct (vec_size c =? d)%Z; simpl; [by rewrite Hc|by rewrite lookup_insert_eq].
  - simpl. by rewrite lookup_insert_eq.
Qed.

(** A reconciliation that returns normally has met every case of
    [reconciled], whatever calls were answered. *)
Lemma reconcileCollection_ok_inv env d w w' :
  reconcileCollection env d w = (Ok tt, w') →
  qdrant w' = qdrant (reconciled d w).
Proof.
  unfold reconcileCollection, reconciled, try_catch, bind, getCollections,
    service at 1.
  destruct (fault env (length (calls w))); [done|].
  destruct (qdrant w !! "pdf-docs") as [c|] eqn:Hc.
  - rewrite (collection_listed_Some _ _ c) by done.
    unfold getCollection, service at 1.
    destruct (fault env (length (calls (log GetCollections w)))); [done|].
    simpl qdrant. rewrite Hc. cbv beta iota.
    destruct (vec_size c =? d)%Z; cbn [negb]; cbv beta iota.
    + intros H. by inversion H.
    + unfold deleteCollection, service at 1.
      destruct (fault env _); [done|]. cbv beta iota.
      unfold createCollection, service.
      destruct (fault env _); [done|]. simpl qdrant.
      rewrite lookup_delete_eq. intros H. by inversion H.
  - rewrite collection_listed_None by done.
    unfold createCollection, service.
    destruct (fault env _); [done|]. simpl qdrant. rewrite Hc.
    intros H. by inversion H.
Qed.

(** X6. A reconciliation that returns normally, whichever calls it needed,
    leaves ["pdf-docs"] with the probed size; the collection holds the
    points it had when its size already was the probed one, and no point
    otherwise; the other collections are as they were. *)
Theorem reconcile_postcondition (env : Env) (d : Z) (w w' : World) :
  reconcileCollection env d w = (Ok tt, w') →
  vec_size <$> qdrant w' !! "pdf-docs" = Some d
  ∧ stored w' = kept d w
  ∧ others_kept w w'.
Proof.
  intros H. apply reconcileCollection_ok_inv in H.
  split; [rewrite H; apply reconciled_size|].
  split; [unfold stored; rewrite H; apply stored_reconciled|].
  intros name Hname. rewrite H. unfold reconciled.
  destruct (qdrant w !! "pdf-docs") as [c|]; [destruct (vec_size c =? d)%Z|];
    simpl; try done.
  - by rewrite lookup_insert_ne, lookup_delete_ne.
  - by rewrite lookup_insert_ne.
Qed.

(** A collection of another size that holds two points. *)
Lemma reconcile_postcondition_witness :
  reconcileCollection env_120 768 in_use
    = (Ok tt, snd (reconcileCollection env_120 768 in_use))
  ∧ stored in_use = old_points
  ∧ stored (snd (reconcileCollection env_120 768 in_use)) = [].
Proof.
  assert (reconcileCollection env_120 768 in_use
          = (Ok tt, snd (reconcileCollection env_120 768 in_use))) as H
    by (vm_compute; reflexivity).
  split; [exact H|]. split; [reflexivity|].
  destruct (reconcile_postcondition env_120 768 in_use _ H) as (_ & Hstored & _).
  rewrite Hstored. reflexivity.
Defined.

(** X7. The resync is not atomic: when the collection has another size,
    the delete is answered and the create then throws, the reconciliation
    throws that error and ["pdf-docs"] no longer exists. *)
Theorem failed_create_leaves_no_collection (env : Env) (d : Z) (w : World)
    (c : Collection) (e : Error) :
  qdrant w !! "pdf-docs" = Some c →
  vec_size c ≠ d →
  reachable env w 3 →
  fault env (length (calls w) + 3) = Some e →
  ∃ w', reconcileCollection env d w = (Err e, w')
    ∧ qdrant w' !! "pdf-docs" = None
    ∧ issued w w' = [GetCollections; GetCollection "pdf-docs";
                     DeleteCollection "pdf-docs";
                     CreateCollection "pdf-docs" d Cosine].
Proof.
  intros Hc Hd H He.
  pose proof (H 0 ltac:(lia)) as H0. rewrite Nat.add_0_r in H0.
  pose proof (H 1 ltac:(lia)) as H1.
  pose proof (H 2 ltac:(lia)) as H2.
  unfold reconcileCollection, try_catch, bind, getCollections.
  rewrite service_ok by done.
  rewrite (collection_listed_Some _ _ c) by done.
  unfold getCollection. rewrite service_ok
    by (rewrite length_calls_log, <- Nat.add_1_r; done).
  simpl qdrant. rewrite Hc.
  apply Z.eqb_neq in Hd. rewrite Hd. cbn [negb]. cbv beta iota.
  unfold deleteCollection, createCollection.
  rewrite service_ok.
  2:{ rewrite !length_calls_log.
      replace (S (S (length (calls w)))) with (length (calls w) + 2) by lia.
      done. }
  cbv beta iota. rewrite (service_fault _ _ _ _ e).
  2:{ simpl calls. rewrite !length_app. simpl.
      replace (length (calls w) + 1 + 1 + 1) with (length (calls w) + 3) by lia.
      done. }
  eexists. split; [reflexivity|]. split.
  - simpl. apply lookup_delete_eq.
  - apply issued_extend. simpl. by rewrite <- !app_assoc.
Qed.

(** A collection of size 768, a probed dimension of 1024, and the create
    timing out. *)
Lemma failed_create_leaves_no_collection_witness :
  qdrant stale !! "pdf-docs" = Some (mkCollection 768 Cosine [])
  ∧ ∃ w', reconcileCollection env_create_down 1024 stale = (Err (Thrown "ETIMEDOUT"), w')
      ∧ qdrant w' !! "pdf-docs" = None.
Proof.
  assert (qdrant stale !! "pdf-docs" = Some (mkCollection 768 Cosine [])) as Hc
    by (vm_compute; reflexivity).
  split; [exact Hc|].
  assert (reachable env_create_down stale 3) as Hr.
  { intros i Hi. destruct i as [|[|[|i]]]; [reflexivity..|lia]. }
  destruct (failed_create_leaves_no_collection env_create_down 1024 stale _
              (Thrown "ETIMEDOUT") Hc ltac:(discriminate) Hr eq_refl)
    as (w' & Hrun & Hgone & _).
  exists w'. split; assumption.
Defined.

(** The probe, with its two outcomes. *)
Lemma probe_run env w :
  getEmbeddingDimension env w =
    (Ok match fault env (length (calls w)) with
        | None => provider_dimension env
        | Some _ => 768%Z
        end,
     log (EmbedQuery "test query") w).
Proof.
  unfold getEmbeddingDimension, try_catch, bind, embedQuery, service, ret.
  by destruct (fault env (length (calls w))).
Qed.

(** X8. When the provider does not answer the probe, the collection is
    reconciled with the default 768: a collection of any other size, be it
    the provider's real dimension, is deleted and created empty with size
    768. *)
Theorem probe_fallback_resets_collection (env : Env) (w : World)
    (c : Collection) (e : Error) :
  fault env (length (calls w)) = Some e →
  (∀ i, 1 ≤ i ≤ 4 → fault env (length (calls w) + i) = None) →
  qdrant w !! "pdf-docs" = Some c →
  vec_size c ≠ 768%Z →
  ∃ w', probeAndReconcile env w = (Ok tt, w')
    ∧ qdrant w' !! "pdf-docs" = Some (mkCollection 768 Cosine [])
    ∧ existsb creates_or_deletes (issued w w') = true.
Proof.
  intros He Hans Hc Hsize.
  unfold probeAndReconcile, bind. rewrite probe_run, He.
  set (w1 := log (EmbedQuery "test query") w).
  assert (reachable env w1 4) as Hr.
  { intros i Hi. unfold w1. rewrite length_calls_log.
    replace (S (length (calls w)) + i) with (length (calls w) + S i) by lia.
    apply Hans. lia. }
  rewrite (reconcileCollection_reachable env 768 w1 Hr).
  eexists. split; [reflexivity|].
  unfold reconciled. simpl qdrant. rewrite Hc.
  apply Z.eqb_neq in Hsize. rewrite Hsize. simpl qdrant.
  split; [apply lookup_insert_eq|].
  unfold issued, w1. simpl. rewrite <- app_assoc. by rewrite drop_app_length.
Qed.

(** A collection of the provider's dimension 3 holding two points, and the
    provider down during the probe. *)
Lemma probe_fallback_resets_collection_witness :
  provider_dimension env_probe_down = 3%Z
  ∧ qdrant in_use !! "pdf-docs" = Some (mkCollection 3 Cosine old_points)
  ∧ ∃ w', probeAndReconcile env_probe_down in_use = (Ok tt, w')
      ∧ qdrant w' !! "pdf-docs" = Some (mkCollection 768 Cosine []).
Proof.
  assert (qdrant in_use !! "pdf-docs" = Some (mkCollection 3 Cosine old_points))
    as Hc by (vm_compute; reflexivity).
  split; [reflexivity|]. split; [exact Hc|].
  assert (∀ i, 1 ≤ i ≤ 4 → fault env_probe_down (length (calls in_use) + i) = None)
    as Hans.
  { intros i Hi. destruct i as [|i]; [lia|reflexivity]. }
  destruct (probe_fallback_resets_collection env_probe_down in_use _
              (Thrown "ECONNREFUSED") eq_refl Hans Hc ltac:(discriminate))
    as (w' & Hrun & Hreset & _).
  exists w'. split; assumption.
Defined.

(** ** Other collections *)

#[local] Instance others_kept_preorder : PreOrder others_kept.
Proof.
  split.
  - by intros w name _.
  - intros w1 w2 w3 H12 H23 name Hname. by rewrite H23, H12.
Qed.

Lemma others_kept_same w w' : qdrant w' = qdrant w → others_kept w w'.
Proof. intros H name _. by rewrite H. Qed.

Lemma others_kept_reconcileCollection env d :
  respects others_kept (reconcileCollection env d).
Proof.
  unfold reconcileCollection.
  respecting respects_try_catch; [|intros; by respecting respects_throw].
  respecting respects_bind.
  { respecting respects_service; [by intros|].
    intros w r w' E. by inversion E. }
  intros names. destruct (existsb _ names).
  - respecting respects_bind.
    { respecting respects_service; [by intros|]. intros w r w' E.
      simpl in E. destruct (qdrant w !! "pdf-docs"); by inversion E. }
    intros info. destruct (negb _); [|by respecting respects_ret].
    respecting respects_bind.
    { respecting respects_service; [by intros|]. intros w r w' E.
      inversion E. intros name Hname. simpl. by rewrite lookup_delete_ne. }
    intros _. respecting respects_service; [by intros|]. intros w r w' E.
    simpl in E. destruct (qdrant w !! "pdf-docs"); inversion E; [done|].
    intros name Hname. simpl. by rewrite lookup_insert_ne.
  - respecting respects_service; [by intros|]. intros w r w' E.
    simpl in E. destruct (qdrant w !! "pdf-docs"); inversion E; [done|].
    intros name Hname. simpl. by rewrite lookup_insert_ne.
Qed.

Lemma others_kept_addDocuments env b : respects others_kept (addDocuments env b).
Proof.
  respecting respects_service; [by intros|]. intros w r w' E. simpl in E.
  destruct (qdrant w !! "pdf-docs") as [c|]; [|by inversion E].
  destruct (forallb _ _); inversion E; [|done].
  intros name Hname. simpl. by rewrite lookup_insert_ne.
Qed.

(** X9. Whatever its outcome, a job leaves every collection other than
    ["pdf-docs"] exactly as it was. *)
Theorem other_collections_untouched (env : Env) (job : Job) (w w' : World)
    (r : Result JobResult) (name : string) :
  processor env job w = (r, w') →
  name ≠ "pdf-docs" →
  qdrant w' !! name = qdrant w !! name.
Proof.
  intros Hrun Hname.
  assert (respects others_kept (processor env job)) as H.
  { respecting respects_processor.
    - intros fp w0 r0 w0' E. inversion E. done.
    - intros w0 r0 w0' E. rewrite probe_run in E. inversion E. done.
    - apply others_kept_reconcileCollection.
    - intros fp. respecting respects_service; [by intros|].
      intros w0 r0 w0' E. destruct fp; by inversion E.
    - intros docs. respecting respects_service; [by intros|].
      intros w0 r0 w0' E. by inversion E.
    - apply others_kept_addDocuments.
    - intros w0 r0 w0' E. inversion E. done. }
  exact (H _ _ _ Hrun name Hname).
Qed.

(** A job on an index service that also holds the collection [notes]. *)
Lemma other_collections_untouched_witness :
  qdrant (snd (processor env_120 job_a in_use)) !! "notes"
    = Some (mkCollection 5 Dot []).
Proof.
  rewrite (other_collections_untouched env_120 job_a in_use _ _ "notes"
             (surjective_pairing _)); [reflexivity|discriminate].
Defined.

(** ** A collection of the probed size *)

#[local] Instance grown_preorder : PreOrder grown.
Proof.
  split.
  - intros w c Hc. exists []. rewrite app_nil_r, Hc. by destruct c.
  - intros w1 w2 w3 H12 H23 c Hc.
    destruct (H12 c Hc) as [x1 H2]. destruct (H23 _ H2) as [x2 H3].
    exists (x1 ++ x2). rewrite H3. simpl. by rewrite app_assoc.
Qed.

Lemma grown_same w w' : qdrant w' = qdrant w → grown w w'.
Proof. intros H. replace w' with {| qdrant := qdrant w; calls := calls w' |}
  by (destruct w'; simpl in *; by subst). intros c Hc. exists [].
  simpl. rewrite app_nil_r, Hc. by destruct c.
Qed.

Lemma grown_addDocuments env b : respects grown (addDocuments env b).
Proof.
  intros w r w' E. unfold addDocuments, service in E.
  destruct (fault env _); [inversion E; by apply grown_same|].
  simpl in E. destruct (qdrant w !! "pdf-docs") as [c0|] eqn:Hc0;
    [|inversion E; by apply grown_same].
  destruct (forallb _ _); inversion E; [|by apply grown_same].
  intros c Hc. rewrite Hc0 in Hc. injection Hc as <-.
  eexists. simpl. by rewrite lookup_insert_eq.
Qed.

Lemma grown_batchLoop env cs i : respects grown (batchLoop env cs i).
Proof.
  respecting respects_batchLoop; [apply grown_addDocuments|].
  intros w r w' E. inversion E. by apply grown_same.
Qed.

(** Loading and splitting do not write to the index service. *)
Lemma pdf_load_qdrant env fp w r w' :
  pdf_load env fp w = (r, w') → qdrant w' = qdrant w.
Proof.
  unfold pdf_load, service. destruct (fault env _); [by inversion 1|].
  destruct fp; by inversion 1.
Qed.

Lemma splitDocuments_qdrant env docs w r w' :
  splitDocuments env docs w = (r, w') → qdrant w' = qdrant w.
Proof.
  unfold splitDocuments, service, ret. destruct (fault env _); by inversion 1.
Qed.

(** Up to the split, a run whose probe returns the size of the collection
    writes nothing to the index service. *)
Lemma prepare_settled env job w c r0 w0 :
  prepare env job w = (r0, w0) →
  qdrant w !! "pdf-docs" = Some c →
  vec_size c = match fault env (S (length (calls w))) with
               | None => provider_dimension env
               | Some _ => 768%Z
               end →
  qdrant w0 = qdrant w.
Proof.
  intros Hrun Hc Hsize. revert Hrun.
  unfold prepare, reachLoading. unfold bind at 1 2.
  destruct (jobFilePath_const env job) as [[fp|e] Hr]; rewrite Hr;
    [|by inversion 1].
  unfold bind at 1. rewrite fs_existsSync_run.
  destruct (negb (on_disk env fp)); [by inversion 1|].
  unfold bind at 1. rewrite probe_run, length_calls_log.
  set (w1 := log _ (log _ w)).
  destruct (reconcileCollection_settled env _ w1 c Hc Hsize)
    as (r1 & cs & Hrec & _).
  unfold bind at 1. rewrite Hrec.
  destruct r1 as [[]|e]; [|by inversion 1].
  unfold ret, bind at 1.
  destruct (pdf_load env fp _) as [[docs|e] w3] eqn:Hload;
    apply pdf_load_qdrant in Hload; simpl in Hload; [|inversion 1; by subst].
  intros Hsplit. apply splitDocuments_qdrant in Hsplit. by rewrite Hsplit, Hload.
Qed.

(** X15. A job never removes a point from a collection whose size is the
    dimension its probe returns: whatever the outcome of the run and
    whichever calls fail, ["pdf-docs"] keeps its configuration and its
    points, in order, followed by those the run has added. *)
Theorem matching_collection_only_grows (env : Env) (job : Job) (w w' : World)
    (r : Result JobResult) (c : Collection) :
  processor env job w = (r, w') →
  qdrant w !! "pdf-docs" = Some c →
  vec_size c = match fault env (S (length (calls w))) with
               | None => provider_dimension env
               | Some _ => 768%Z
               end →
  ∃ extra, qdrant w' !! "pdf-docs"
           = Some (mkCollection (vec_size c) (vec_distance c) (points c ++ extra)).
Proof.
  rewrite processor_prepare. intros Hrun Hc Hsize.
  destruct (prepare env job w) as [[splitDocs|e] w0] eqn:Hprep.
  - pose proof (prepare_settled _ _ _ _ _ _ Hprep Hc Hsize) as Hq.
    destruct (batchLoop env splitDocs 0 w0) as [r1 w1] eqn:Hloop.
    apply grown_batchLoop in Hloop.
    assert (w1 = w') as -> by (destruct r1 as [[]|]; by inversion Hrun).
    apply Hloop. by rewrite Hq.
  - inversion Hrun; subst.
    pose proof (prepare_settled _ _ _ _ _ _ Hprep Hc Hsize) as Hq.
    apply (grown_same w w' Hq c Hc).
Qed.

(** The job of 120 chunks on a collection of the provider's dimension that
    holds two points, the upsert of the second group failing. *)
Lemma matching_collection_only_grows_witness :
  qdrant in_use !! "pdf-docs" = Some (mkCollection 3 Cosine old_points)
  ∧ fst (processor env_120_broken job_a in_use) = Err (Thrown "ECONNRESET")
  ∧ ∃ extra, qdrant (snd (processor env_120_broken job_a in_use)) !! "pdf-docs"
             = Some (mkCollection 3 Cosine (old_points ++ extra)).
Proof.
  assert (qdrant in_use !! "pdf-docs" = Some (mkCollection 3 Cosine old_points))
    as Hc by (vm_compute; reflexivity).
  split; [exact Hc|]. split; [vm_compute; reflexivity|].
  exact (matching_collection_only_grows env_120_broken job_a in_use _ _ _
           (surjective_pairing _) Hc eq_refl).
Defined.

(** ** Upserts and pauses of any run *)



Lemma pauses_paced gs : length (filter is_pause (paced gs)) = length gs - 1.
Proof.
  induction gs as [|g [|g' rest] IH]; [done..|].
  change (paced (g :: g' :: rest))
    with (AddDocuments g :: Sleep 1000 :: paced (g' :: rest)).
  rewrite filter_cons_False by (by intros []).
  rewrite filter_cons_True by done.
  simpl length in *. rewrite IH. lia.
Qed.

(** A loop that returns normally has issued one [addDocuments] per group
    and a pause between two groups. *)
Lemma batchLoop_paced env cs m : ∀ j0 w w',
  group_count (length cs) = j0 + m →
  batchLoop env cs (batchSize * j0) w = (Ok tt, w') →
  calls w' = calls w ++ paced (map (group cs) (seq j0 m)).
Proof.
  induction m as [|m IH]; intros j0 w w' Hcount Hrun;
    rewrite batchLoop_step in Hrun.
  - case_decide as Hlt.
    + apply group_count_lt in Hlt. lia.
    + inversion Hrun; subst. by rewrite app_nil_r.
  - case_decide as Hlt.
    2:{ exfalso. apply Hlt, group_count_lt. lia. }
    unfold bind at 1 in Hrun.
    destruct (addDocuments env _ w) as [[[]|e] w1] eqn:Hadd; [|done].
    apply addDocuments_calls in Hadd.
    unfold bind at 1 in Hrun.
    destruct ((if _ <? _ then sleep 1000 else ret tt) w1) as [r2 w2] eqn:Hpause.
    apply pause_calls in Hpause as (-> & _ & Hcalls2).
    replace (batchSize * j0 + batchSize) with (batchSize * S j0) in Hrun by lia.
    apply IH in Hrun; [|lia].
    rewrite Hrun, Hcalls2, Hadd, <- !app_assoc. f_equal.
    fold (group cs j0). destruct m as [|m].
    + assert ((batchSize * j0 + batchSize <? length cs) = false) as ->; [|done].
      apply Nat.ltb_ge.
      destruct (decide (batchSize * S j0 < length cs)) as [H|H]; [|lia].
      apply group_count_lt in H. lia.
    + assert ((batchSize * j0 + batchSize <? length cs) = true) as ->; [|done].
      apply Nat.ltb_lt.
      replace (batchSize * j0 + batchSize) with (batchSize * S j0) by lia.
      apply group_count_lt. lia.
Qed.

(** X14. A job that succeeds has paced its writes: after the split its
    calls are the upsert of the first group, then, for every further
    group, a pause of one second followed by the upsert of that group; so
    there is a pause between any two upserts, none before the first or
    after the last, and [ceil(n / 50) - 1] pauses in all. *)
Theorem batches_paced (env : Env) (job : Job) (w w' : World) (r : JobResult) :
  processor env job w = (Ok r, w') →
  ∃ p pre, fst (jobFilePath env job w) = Ok (VString p)
    ∧ issued w w' = pre ++ paced (groups (split_chunks env (pdf_pages env p)))
    ∧ Forall before_indexing pre
    ∧ length (filter is_pause (issued w w'))
      = group_count (length (split_chunks env (pdf_pages env p))) - 1.
Proof.
  rewrite processor_prepare. intros Hrun.
  destruct (prepare env job w) as [[splitDocs|e] w0] eqn:Hprep; [|done].
  destruct (prepare_before_indexing _ _ _ _ _ Hprep) as (pre & Hpre & Hnone).
  apply prepare_ok_inv in Hprep as (p & _ & Hpath & _ & -> & _).
  destruct (batchLoop env _ 0 w0) as [[[]|e] w1] eqn:Hloop; [|done].
  inversion Hrun; subst; clear Hrun.
  change 0 with (batchSize * 0) in Hloop.
  apply (batchLoop_paced env _ _ 0 _ _ eq_refl) in Hloop.
  exists p, pre. split; [done|].
  assert (issued w w' = pre ++ paced (groups (split_chunks env (pdf_pages env p))))
    as Hissued.
  { apply issued_extend. by rewrite Hloop, Hpre, <- app_assoc. }
  split; [done|]. split; [done|].
  rewrite Hissued, filter_app, (before_indexing_no_pause pre) by done.
  simpl. by rewrite pauses_paced, length_groups.
Qed.

(** The job of 120 chunks: two pauses. *)
Lemma batches_paced_witness :
  processor env_120 job_a fresh
    = (Ok {| success := true; docCount := 120 |},
       snd (processor env_120 job_a fresh))
  ∧ length (filter is_pause (issued fresh (snd (processor env_120 job_a fresh)))) = 2.
Proof.
  assert (processor env_120 job_a fresh
          = (Ok {| success := true; docCount := 120 |},
             snd (processor env_120 job_a fresh))) as H
    by (vm_compute; reflexivity).
  split; [exact H|].
  destruct (batches_paced env_120 job_a fresh _ _ H) as (p & pre & Hp & _ & _ & Hn).
  vm_compute in Hp. injection Hp as <-. exact Hn.
Defined.

(** ** What a successful job has stored *)

Lemma addDocuments_ok_inv env b w w' :
  addDocuments env b w = (Ok tt, w') →
  ∃ c, qdrant w !! "pdf-docs" = Some c
    ∧ qdrant w' = <["pdf-docs" := mkCollection (vec_size c) (vec_distance c)
                                    (points c ++ map (embed_point env) b)]> (qdrant w).
Proof.
  unfold addDocuments, service. destruct (fault env _); [done|].
  simpl. destruct (qdrant w !! "pdf-docs") as [c|]; [|done].
  destruct (forallb _ _); [|done]. intros H. inversion H. eauto.
Qed.

Lemma drop_group cs j :
  drop (batchSize * j) cs = group cs j ++ drop (batchSize * S j) cs.
Proof.
  unfold group, slice.
  replace (batchSize * j + batchSize - batchSize * j) with batchSize by lia.
  replace (batchSize * S j) with (batchSize * j + batchSize) by lia.
  by rewrite <- drop_drop, take_drop.
Qed.

(** A loop that returns normally has appended the points of every
    remaining chunk, in order. *)
Lemma batchLoop_ok_stored env cs m : ∀ j0 w w' c,
  group_count (length cs) = j0 + m →
  qdrant w !! "pdf-docs" = Some c →
  batchLoop env cs (batchSize * j0) w = (Ok tt, w') →
  qdrant w' !! "pdf-docs"
    = Some (mkCollection (vec_size c) (vec_distance c)
              (points c ++ map (embed_point env) (drop (batchSize * j0) cs))).
Proof.
  induction m as [|m IH]; intros j0 w w' c Hcount Hc Hrun;
    rewrite batchLoop_step in Hrun.
  - case_decide as Hlt.
    + apply group_count_lt in Hlt. lia.
    + inversion Hrun; subst. rewrite drop_ge by lia. simpl.
      rewrite app_nil_r, Hc. by destruct c.
  - case_decide as Hlt.
    2:{ exfalso. apply Hlt, group_count_lt. lia. }
    unfold bind at 1 in Hrun.
    destruct (addDocuments env _ w) as [[[]|e] w1] eqn:Hadd; [|done].
    apply addDocuments_ok_inv in Hadd as (c0 & Hc0 & Hq1).
    rewrite Hc in Hc0. injection Hc0 as <-.
    unfold bind at 1 in Hrun.
    destruct ((if _ <? _ then sleep 1000 else ret tt) w1) as [r2 w2] eqn:Hpause.
    apply pause_calls in Hpause as (-> & Hq2 & _).
    replace (batchSize * j0 + batchSize) with (batchSize * S j0) in Hrun by lia.
    eapply IH in Hrun; [|lia|by rewrite Hq2, Hq1, lookup_insert_eq].
    rewrite Hrun. cbn [vec_size vec_distance points]. fold (group cs j0).
    by rewrite (drop_group cs j0), map_app, app_assoc.
Qed.

(** A successful [prepare] leaves the collection in place. *)
Lemma prepare_ok_collection env job w splitDocs w0 :
  prepare env job w = (Ok splitDocs, w0) →
  is_Some (qdrant w0 !! "pdf-docs").
Proof.
  unfold prepare, reachLoading. unfold bind at 1 2.
  destruct (jobFilePath_const env job) as [[fp|e] Hr]; rewrite Hr; [|done].
  unfold bind at 1. rewrite fs_existsSync_run.
  destruct (negb (on_disk env fp)); [done|].
  unfold bind at 1. rewrite probe_run.
  set (d := match fault env _ with Some _ => _ | None => _ end).
  unfold bind at 1.
  destruct (reconcileCollection env d _) as [[[]|e] w2] eqn:Hrec; [|done].
  apply reconcileCollection_ok_inv in Hrec.
  unfold ret, bind at 1.
  destruct (pdf_load env fp w2) as [[docs|e] w3] eqn:Hload; [|done].
  apply pdf_load_qdrant in Hload.
  intros Hsplit. apply splitDocuments_qdrant in Hsplit.
  rewrite Hsplit, Hload, Hrec.
  pose proof (reconciled_size d (log (EmbedQuery "test query") (log (ExistsSync fp) w)))
    as Hsize.
  destruct (qdrant (reconciled d _) !! "pdf-docs"); [eauto|done].
Qed.

(** X12. A job that succeeds has stored all its chunks: the last points of
    ["pdf-docs"] are the chunks of the document, each with its embedding,
    in chunk order. *)
Theorem success_persists_chunks (env : Env) (job : Job) (w w' : World)
    (r : JobResult) :
  processor env job w = (Ok r, w') →
  ∃ p base, fst (jobFilePath env job w) = Ok (VString p)
    ∧ stored w'
      = base ++ map (embed_point env) (split_chunks env (pdf_pages env p)).
Proof.
  rewrite processor_prepare. intros Hrun.
  destruct (prepare env job w) as [[splitDocs|e] w0] eqn:Hprep; [|done].
  destruct (prepare_ok_collection _ _ _ _ _ Hprep) as [c Hc].
  apply prepare_ok_inv in Hprep as (p & _ & Hpath & _ & -> & _).
  destruct (batchLoop env _ 0 w0) as [[[]|e] w1] eqn:Hloop; [|done].
  inversion Hrun; subst; clear Hrun.
  change 0 with (batchSize * 0) in Hloop.
  apply (batchLoop_ok_stored env _ _ 0 _ _ c eq_refl Hc) in Hloop.
  exists p, (points c). split; [done|].
  unfold stored. by rewrite Hloop.
Qed.

(** The job of 120 chunks on a new index service: 120 points. *)
Lemma success_persists_chunks_witness :
  processor env_120 job_a fresh
    = (Ok {| success := true; docCount := 120 |},
       snd (processor env_120 job_a fresh))
  ∧ ∃ base, stored (snd (processor env_120 job_a fresh))
            = base ++ map (embed_point env_120) (numbered_chunks 120).
Proof.
  assert (processor env_120 job_a fresh
          = (Ok {| success := true; docCount := 120 |},
             snd (processor env_120 job_a fresh))) as H
    by (vm_compute; reflexivity).
  split; [exact H|].
  destruct (success_persists_chunks env_120 job_a fresh _ _ H) as (p & base & Hp & Hs).
  vm_compute in Hp. injection Hp as <-. exists base. exact Hs.
Defined.

(** ** Jobs that succeed *)

Lemma answering_later env w w' :
  answering env w → length (calls w) ≤ length (calls w') → answering env w'.
Proof. intros H Hle n Hn. apply H. lia. Qed.

(** With every service answering and every vector of the collection's
    size, the loop returns normally. *)
Lemma batchLoop_succeeds env cs m : ∀ j0 w c,
  group_count (length cs) = j0 + m →
  qdrant w !! "pdf-docs" = Some c →
  answering env w →
  Forall (λ d, fits c (embed_point env d) = true) (drop (batchSize * j0) cs) →
  ∃ w', batchLoop env cs (batchSize * j0) w = (Ok tt, w')
    ∧ length (calls w) ≤ length (calls w').
Proof.
  induction m as [|m IH]; intros j0 w c Hcount Hc Hans Hfits;
    rewrite batchLoop_step.
  - rewrite decide_False; [by exists w|].
    intros Hlt. apply group_count_lt in Hlt. lia.
  - rewrite decide_True by (apply group_count_lt; lia).
    rewrite (drop_group cs j0) in Hfits.
    apply Forall_app in Hfits as [Hfits0 Hfits1].
    unfold bind at 1. fold (group cs j0).
    rewrite (addDocuments_ok env (group cs j0) w c); [|by apply Hans|done..].
    unfold bind at 1.
    set (w1 := {| qdrant := _; calls := calls w ++ _ |}).
    destruct ((if _ <? _ then sleep 1000 else ret tt) w1) as [r2 w2] eqn:Hpause.
    apply pause_calls in Hpause as (-> & Hq2 & Hcalls2).
    replace (batchSize * j0 + batchSize) with (batchSize * S j0) by lia.
    destruct (IH (S j0) w2
                (mkCollection (vec_size c) (vec_distance c)
                   (points c ++ map (embed_point env) (group cs j0))))
      as (w' & Hrun & Hlen).
    + lia.
    + rewrite Hq2. unfold w1. simpl. by rewrite lookup_insert_eq.
    + apply (answering_later env w); [done|].
      rewrite Hcalls2. unfold w1. simpl. rewrite !length_app. lia.
    + done.
    + exists w'. split; [done|].
      rewrite Hcalls2 in Hlen. unfold w1 in Hlen. simpl in Hlen.
      rewrite !length_app in Hlen. lia.
Qed.

Lemma kept_stored d w :
  vec_size <$> qdrant w !! "pdf-docs" = Some d → kept d w = stored w.
Proof.
  unfold kept, stored. destruct (qdrant w !! "pdf-docs") as [c|]; [|done].
  simpl. intros H. injection H as <-. by rewrite Z.eqb_refl.
Qed.

(** The run of a job on an existing file when every service answers and
    the provider embeds every chunk with its dimension. *)
Lemma processor_succeeds env job w p :
  fst (jobFilePath env job w) = Ok (VString p) →
  fs_exists env p = true →
  answering env w →
  uniform env (split_chunks env (pdf_pages env p)) →
  ∃ w', processor env job w
        = (Ok {| success := true;
                 docCount := length (split_chunks env (pdf_pages env p)) |}, w')
    ∧ vec_size <$> qdrant w' !! "pdf-docs" = Some (provider_dimension env)
    ∧ stored w' = kept (provider_dimension env) w
                  ++ map (embed_point env) (split_chunks env (pdf_pages env p))
    ∧ length (calls w) ≤ length (calls w').
Proof.
  intros Hpath Hdisk Hans Huni.
  set (chunks := split_chunks env (pdf_pages env p)) in *.
  set (d := provider_dimension env).
  set (w2 := log (EmbedQuery "test query") (log (ExistsSync (VString p)) w)).
  set (w5 := log (SplitDocuments (pdf_pages env p))
               (log (PdfLoad (VString p)) (reconciled d w2))).
  assert (∀ w0 k, length (calls w0) = length (calls w) + k →
                  fault env (length (calls w0)) = None) as Hat.
  { intros w0 k Hk. apply Hans. lia. }
  assert (prepare env job w = (Ok chunks, w5)) as Hprep.
  { unfold prepare, reachLoading. unfold bind at 1 2.
    destruct (jobFilePath_const env job) as [r0 Hr]. rewrite Hr in *.
    simpl in Hpath. subst r0.
    unfold bind at 1. rewrite fs_existsSync_run. unfold on_disk. rewrite Hdisk.
    cbn [negb]. unfold bind at 1. rewrite probe_run.
    rewrite (Hat _ 1) by (rewrite length_calls_log; lia).
    fold d w2. unfold bind at 1.
    rewrite (reconcileCollection_reachable env d w2).
    2:{ intros i Hi. apply Hans. unfold w2. rewrite !length_calls_log. lia. }
    unfold ret, bind, pdf_load, splitDocuments.
    assert (length (calls w2) ≤ length (calls (reconciled d w2))) as Hlen.
    { unfold reconciled.
      destruct (qdrant w2 !! "pdf-docs") as [c|];
        [destruct (vec_size c =? d)%Z|]; cbn [calls]; rewrite length_app; lia. }
    assert (length (calls w2) = length (calls w) + 2) as Hw2
      by (unfold w2; rewrite !length_calls_log; lia).
    rewrite service_ok by (apply Hans; lia).
    rewrite service_ok; [done|].
    apply Hans. rewrite length_calls_log. lia. }
  assert (length (calls w) ≤ length (calls w5)) as Hlen5.
  { apply prepare_before_indexing in Hprep as (pre & -> & _).
    rewrite length_app. lia. }
  pose proof (reconciled_size d w2) as Hsize.
  assert (qdrant w5 = qdrant (reconciled d w2)) as Hq5 by done.
  destruct (qdrant w5 !! "pdf-docs") as [c|] eqn:Hc; [|by rewrite <- Hq5, Hc in Hsize].
  rewrite <- Hq5, Hc in Hsize. injection Hsize as Hsize.
  destruct (batchLoop_succeeds env chunks _ 0 w5 c eq_refl Hc)
    as (w' & Hloop & Hlen').
  { by apply (answering_later env w). }
  { rewrite Nat.mul_0_r, drop_0. eapply Forall_impl; [exact Huni|].
    intros doc Hdoc. unfold fits. simpl. rewrite Hdoc, Hsize. apply Z.eqb_refl. }
  exists w'. rewrite processor_prepare, Hprep.
  change 0 with (batchSize * 0) at 1. rewrite Hloop.
  split; [done|].
  apply (batchLoop_ok_stored env chunks _ 0 _ _ c eq_refl Hc) in Hloop.
  rewrite Nat.mul_0_r, drop_0 in Hloop.
  split; [by rewrite Hloop; simpl; rewrite Hsize|].
  split; [|lia].
  unfold stored at 1. rewrite Hloop. simpl. f_equal.
  transitivity (stored (reconciled d w2)).
  - unfold stored. by rewrite <- Hq5, Hc.
  - by rewrite stored_reconciled.
Qed.

(** X11. When the file is on disk, every service answers and the provider
    embeds every chunk with the dimension it showed to the probe, the job
    succeeds with [docCount] the number of chunks; ["pdf-docs"] then has
    the provider's dimension and holds the points it kept through the
    reconciliation, followed by the chunks of the document with their
    embeddings, in chunk order. *)
Theorem job_succeeds_when_services_answer (env : Env) (job : Job) (w : World)
    (p : string) :
  fst (jobFilePath env job w) = Ok (VString p) →
  fs_exists env p = true →
  answering env w →
  uniform env (split_chunks env (pdf_pages env p)) →
  ∃ w', processor env job w
        = (Ok {| success := true;
                 docCount := length (split_chunks env (pdf_pages env p)) |}, w')
    ∧ vec_size <$> qdrant w' !! "pdf-docs" = Some (provider_dimension env)
    ∧ stored w' = kept (provider_dimension env) w
                  ++ map (embed_point env) (split_chunks env (pdf_pages env p)).
Proof.
  intros Hpath Hdisk Hans Huni.
  destruct (processor_succeeds env job w p Hpath Hdisk Hans Huni)
    as (w' & Hrun & Hsize & Hstored & _).
  by exists w'.
Qed.

(** The payload given by directory and file name, as JSON text, on an
    index service that already holds two points of the right dimension. *)
Lemma job_succeeds_when_services_answer_witness :
  fst (jobFilePath env_120 job_upload_json in_use) = Ok (VString "uploads/b.pdf")
  ∧ ∃ w', processor env_120 job_upload_json in_use
          = (Ok {| success := true; docCount := 120 |}, w')
      ∧ stored w' = old_points ++ map (embed_point env_120) (numbered_chunks 120).
Proof.
  assert (fst (jobFilePath env_120 job_upload_json in_use)
          = Ok (VString "uploads/b.pdf")) as Hp by (vm_compute; reflexivity).
  split; [exact Hp|].
  assert (answering env_120 in_use) as Hans by (intros n _; reflexivity).
  assert (uniform env_120 (split_chunks env_120 (pdf_pages env_120 "uploads/b.pdf")))
    as Huni by (apply Forall_forall; intros d _; reflexivity).
  destruct (job_succeeds_when_services_answer env_120 job_upload_json in_use _
              Hp eq_refl Hans Huni) as (w' & Hrun & _ & Hstored).
  exists w'. split; [exact Hrun|]. exact Hstored.
Defined.

(** X13. No deduplication: when a job that succeeded is delivered again
    under the same conditions, it succeeds again and the chunks of the
    document are stored a second time, after the points of the first
    run. *)
Theorem redelivery_duplicates_points (env : Env) (job : Job) (w : World)
    (p : string) :
  fst (jobFilePath env job w) = Ok (VString p) →
  fs_exists env p = true →
  answering env w →
  uniform env (split_chunks env (pdf_pages env p)) →
  ∃ r w1 w2,
    processor env job w = (Ok r, w1)
    ∧ processor env job w1 = (Ok r, w2)
    ∧ stored w1 = kept (provider_dimension env) w
                  ++ map (embed_point env) (split_chunks env (pdf_pages env p))
    ∧ stored w2 = stored w1
                  ++ map (embed_point env) (split_chunks env (pdf_pages env p)).
Proof.
  intros Hpath Hdisk Hans Huni.
  destruct (processor_succeeds env job w p Hpath Hdisk Hans Huni)
    as (w1 & Hrun1 & Hsize1 & Hstored1 & Hlen1).
  destruct (processor_succeeds env job w1 p) as (w2 & Hrun2 & _ & Hstored2 & _);
    [by rewrite (jobFilePath_any_world env job w1 w)|done
    |by apply (answering_later env w)|done|].
  eexists _, w1, w2. split; [exact Hrun1|]. split; [exact Hrun2|].
  split; [done|]. by rewrite Hstored2, (kept_stored _ _ Hsize1).
Qed.

(** The job of 120 chunks delivered twice: 240 points. *)
Lemma redelivery_duplicates_points_witness :
  fst (jobFilePath env_120 job_a fresh) = Ok (VString "/docs/a.pdf")
  ∧ ∃ r w1 w2,
      processor env_120 job_a fresh = (Ok r, w1)
      ∧ processor env_120 job_a w1 = (Ok r, w2)
      ∧ length (stored w1) = 120
      ∧ length (stored w2) = 240.
Proof.
  assert (fst (jobFilePath env_120 job_a fresh) = Ok (VString "/docs/a.pdf"))
    as Hp by reflexivity.
  split; [exact Hp|].
  assert (answering env_120 fresh) as Hans by (intros n _; reflexivity).
  assert (uniform env_120 (split_chunks env_120 (pdf_pages env_120 "/docs/a.pdf")))
    as Huni by (apply Forall_forall; intros d _; reflexivity).
  destruct (redelivery_duplicates_points env_120 job_a fresh _ Hp eq_refl Hans Huni)
    as (r & w1 & w2 & H1 & H2 & Hs1 & Hs2).
  exists r, w1, w2. split; [exact H1|]. split; [exact H2|].
  rewrite Hs2, Hs1. split; reflexivity.
Defined.

(** * Properties of the chunker *)

Module ChunkerFacts.

Import Chunker.

(** ** Windows *)

Lemma windows_bounded {A} maxSize overlap (text : list A) :
  overlap < maxSize →
  Forall (λ win, length win ≤ maxSize) (windows maxSize overlap text).
Proof.
  intros Hlt. funelim (windows maxSize overlap text).
  - by constructor.
  - lia.
  - constructor; [rewrite length_take; lia | auto].
Qed.

Lemma windows_rejoin {A} maxSize overlap (text : list A) :
  overlap < maxSize →
  ∃ rest, windows maxSize overlap text = take maxSize text :: rest
    ∧ take maxSize text ++ concat (map (drop overlap) rest) = text.
Proof.
  intros Hlt. funelim (windows maxSize overlap text).
  - exists []. rewrite take_ge by done. split; [done|]. simpl. apply app_nil_r.
  - lia.
  - destruct (H Hlt) as (rest & Hwin & Hjoin). rewrite Hwin.
    eexists. split; [done|]. simpl.
    assert (overlap ≤ length (take maxSize (drop (S step) text))).
    { rewrite length_take, length_drop. lia. }
    rewrite <- (take_drop maxSize text) at 3. f_equal.
    rewrite <- drop_app_le by done. rewrite Hjoin, drop_drop. f_equal. lia.
Qed.

Lemma length_string_of_list_ascii (l : list ascii) :
  String.length (String.string_of_list_ascii l) = length l.
Proof. induction l as [|a l IH]; simpl; congruence. Qed.

Lemma chars_mkChunk first_page window :
  chars (mkChunk first_page window) = map fst window.
Proof. apply String.list_ascii_of_string_of_list_ascii. Qed.

Lemma fst_annotate pages : map fst (annotate pages) = page_text pages.
Proof.
  unfold annotate, page_text.
  induction pages as [|pg pages IH]; [done|].
  simpl. rewrite map_app, IH. f_equal.
  rewrite map_map. simpl. apply map_id.
Qed.

Lemma map_rejoin {A B} (f : A → B) overlap (ws : list (list A)) :
  rejoin overlap (map (map f) ws) = map f (rejoin overlap ws).
Proof.
  destruct ws as [|first rest]; [done|]. simpl.
  rewrite map_app. f_equal.
  induction rest as [|win rest IH]; [done|].
  simpl. rewrite map_app, IH. f_equal. symmetry. apply fmap_drop.
Qed.

(** ** Chunks *)

(** C6. Configured with [maxSize = 1000] and [overlap = 200], the chunker
    returns, for every non-empty page sequence, a non-empty chunk sequence
    whose chunks all have at most 1000 characters.  It terminates: [split]
    is a total function, its windows being defined by well-founded
    recursion on the length of the remaining text. *)
Theorem split_nonempty_bounded (pages : list Document) :
  pages ≠ [] →
  ∃ chunks, split pages 1000 200 = Some chunks
    ∧ chunks ≠ []
    ∧ Forall (λ c, String.length (pageContent c) ≤ 1000) chunks.
Proof.
  intros Hne. destruct pages as [|pg pages]; [done|].
  eexists. split; [reflexivity|].
  destruct (windows_rejoin 1000 200 (annotate (pg :: pages))) as (rest & Hwin & _);
    [lia|].
  split; [by rewrite Hwin|].
  apply Forall_map.
  eapply Forall_impl; [apply (windows_bounded 1000 200); lia|].
  intros win Hlen. cbn [pageContent mkChunk].
  by rewrite length_string_of_list_ascii, length_map.
Qed.

(** Three short pages. *)
Lemma split_nonempty_bounded_witness :
  three_pages ≠ []
  ∧ ∃ chunks, split three_pages 1000 200 = Some chunks
      ∧ chunks ≠ []
      ∧ Forall (λ c, String.length (pageContent c) ≤ 1000) chunks.
Proof.
  assert (three_pages ≠ []) as H by (intros Heq; discriminate Heq).
  split; [exact H|]. exact (split_nonempty_bounded three_pages H).
Defined.

(** C7. With [overlap < maxSize] the chunker returns a chunk sequence, and
    the first chunk followed by every later chunk without its leading
    [overlap] characters is the concatenated text of the pages. *)
Theorem split_reassemble (pages : list Document) (maxSize overlap : nat) :
  overlap < maxSize →
  ∃ chunks, split pages maxSize overlap = Some chunks
    ∧ reassemble overlap chunks = page_text pages.
Proof.
  intros Hlt. unfold split.
  destruct (maxSize <=? overlap) eqn:Hguard; [apply Nat.leb_le in Hguard; lia|].
  destruct pages as [|pg pages]; [by exists []|].
  eexists. split; [reflexivity|].
  unfold reassemble. rewrite map_map.
  rewrite (map_ext _ (map fst)) by (intros; apply chars_mkChunk).
  rewrite map_rejoin, <- fst_annotate. f_equal.
  destruct (windows_rejoin maxSize overlap (annotate (pg :: pages)) Hlt)
    as (rest & -> & Hjoin).
  done.
Qed.

(** Three pages cut into windows of 30 characters overlapping by 10. *)
Lemma split_reassemble_witness :
  10 < 30
  ∧ ∃ chunks, split three_pages 30 10 = Some chunks
      ∧ reassemble 10 chunks = page_text three_pages.
Proof.
  assert (10 < 30) as H by lia.
  split; [exact H|]. exact (split_reassemble three_pages 30 10 H).
Defined.

End ChunkerFacts.
